(** * Project path history (src/lib/project-history.ts) and the path
      formatter of the project selector component

    A shallow embedding of the history store kept in [localStorage] under
    the key ["claudia-project-history"], of [getProjectName], and of
    [formatPath] from the selector component, followed by the properties
    the specification states about them. *)

From Stdlib Require Import ZArith String Ascii Sorting.Sorted DecimalString.
From stdpp Require Import gmap list sorting.

Local Open Scope Z_scope.

(** ** JavaScript strings

    A JavaScript string is a finite sequence of UTF-16 code units.  Every
    string operation the module uses ([split], [startsWith], [replace],
    [trim], [===]) works on code units, so a string is a list of them. *)

Module JsString.

Definition char16 := N.
Definition jsstring := list char16.

(** The string written as a literal in the source. *)
Fixpoint js (s : string) : jsstring :=
  match s with
  | EmptyString => []
  | String c s' => N_of_ascii c :: js s'
  end.

(** [s.split(sep)] for a separator of one code unit: the pieces between
    the occurrences of [sep]; the empty string splits into one empty
    piece. *)
Fixpoint split (sep : char16) (s : jsstring) : list jsstring :=
  match s with
  | [] => [[]]
  | c :: s' =>
      if N.eqb c sep then [] :: split sep s'
      else match split sep s' with
           | seg :: segs => (c :: seg) :: segs
           | [] => [[c]]
           end
  end.

(** [s.startsWith(p)] *)
Fixpoint startsWith (p s : jsstring) : bool :=
  match p, s with
  | [], _ => true
  | _ :: _, [] => false
  | a :: p', b :: s' => N.eqb a b && startsWith p' s'
  end.

(** [s.replace(pat, rep)] for a string pattern: the first occurrence of
    [pat] is replaced.  The replacement strings used by the component
    hold no [$], so no replacement pattern is expanded. *)
Fixpoint replace (pat rep s : jsstring) : jsstring :=
  if startsWith pat s then rep ++ drop (length pat) s
  else match s with
       | [] => []
       | c :: s' => c :: replace pat rep s'
       end.

(** White space and line terminators, the code units [trim] strips:
    TAB, LF, VT, FF, CR, SP, NBSP, U+1680, U+2000..U+200A, U+2028,
    U+2029, U+202F, U+205F, U+3000 and U+FEFF. *)
Definition isWhiteSpace (c : char16) : bool :=
  ((9 <=? c) && (c <=? 13) || (c =? 32) || (c =? 160) || (c =? 5760)
   || (8192 <=? c) && (c <=? 8202) || (c =? 8232) || (c =? 8233)
   || (c =? 8239) || (c =? 8287) || (c =? 12288) || (c =? 65279))%N.

Fixpoint trimStart (s : jsstring) : jsstring :=
  match s with
  | c :: s' => if isWhiteSpace c then trimStart s' else s
  | [] => []
  end.

Definition trimEnd (s : jsstring) : jsstring := rev (trimStart (rev s)).

(** [s.trim()] *)
Definition trim (s : jsstring) : jsstring := trimEnd (trimStart s).

(** Truthiness of a string: every string but the empty one. *)
Definition truthy (s : jsstring) : bool :=
  match s with [] => false | _ :: _ => true end.

(** [s === t] on strings. *)
Definition eqb (s t : jsstring) : bool := bool_decide (s = t).

End JsString.
Import JsString.

(** ** Arrays read by index

    [a[i]] for an integer index: [undefined] (here [None]) outside
    [0 .. a.length - 1], in particular at [-1]. *)
Definition array_get {A} (a : list A) (i : Z) : option A :=
  if i <? 0 then None else a !! Z.to_nat i.

(** ** getProjectName *)

Definition slash : char16 := 47%N.
Definition backslash : char16 := 92%N.

Definition Unknown_Project : jsstring := js "Unknown Project".

(** [x || fallback] for [x] a string or [undefined]. *)
Definition or_else (x : option jsstring) (fallback : jsstring) : jsstring :=
  match x with
  | Some s => if truthy s then s else fallback
  | None => fallback
  end.

Definition getProjectName (path : jsstring) : jsstring :=
  let parts := filter (fun s => truthy s = true) (split slash path) in
  or_else (array_get parts (Z.of_nat (length parts) - 1)) Unknown_Project.

(** ** formatPath (project selector component) *)

(** [path.match(/^[A-Z]:\\Users\\/)], as the truth value of the result. *)
Definition isUpper (c : char16) : bool := ((65 <=? c) && (c <=? 90))%N.

Definition matchesWindowsUsers (path : jsstring) : bool :=
  match path with
  | d :: rest => isUpper d && startsWith (js ":\Users\") rest
  | [] => false
  end.

(** One of the two blocks for macOS and Linux homes: [Some r] when the
    block returns [r], [None] when control falls through to the next
    statement. *)
Definition formatHome (home path : jsstring) : option jsstring :=
  if startsWith home path then
    match array_get (split slash path) 2 with
    | Some username =>
        if truthy username then Some (replace (home ++ username) (js "~") path)
        else None
    | None => None
    end
  else None.

(** The block for Windows. *)
Definition formatWindows (path : jsstring) : option jsstring :=
  if matchesWindowsUsers path then
    let parts := split backslash path in
    if 2 <? Z.of_nat (length parts) then
      match array_get parts 0, array_get parts 2 with
      | Some drive, Some user =>
          Some (replace (drive ++ js "\Users\" ++ user) (js "~") path)
      | _, _ => None (* not reached: [parts] has three pieces *)
      end
    else None
  else None.

Definition formatPath (path : jsstring) : jsstring :=
  match formatHome (js "/Users/") path with
  | Some r => r
  | None =>
      match formatHome (js "/home/") path with
      | Some r => r
      | None =>
          match formatWindows path with
          | Some r => r
          | None => path
          end
      end
  end.

(** ** What the storage holds

    [localStorage] maps keys to strings.  The module hands the string
    under its key to [JSON.parse] and writes back what [JSON.stringify]
    prints, so a stored string is described by what [JSON.parse] makes of
    it: a [SyntaxError], or a value.  [JSON.parse (JSON.stringify v)] is
    [v] for the values below, which is why a written value is read back
    as itself.  The storage is taken to be there and to have room:
    [getItem], [setItem] and [removeItem] return.

    The elements of a parsed array are [null] or objects.  The result of
    [JSON.parse] is only cast to [ProjectHistoryItem[]], never checked, so
    an object may lack [path] or [name]; [lastUsed] is a number, an
    integer as [Date.now()] returns it (with a [lastUsed] that is not a
    number the comparator yields [NaN] and the order [sort] produces is
    left to the engine). *)

Record ProjectHistoryItem := mkItem {
  path : option jsstring;      (* [None]: the property is missing *)
  lastUsed : Z;
  name : option jsstring
}.

Inductive element :=
| Null
| Object (o : ProjectHistoryItem).

Inductive parsed :=
| PNull
| PBoolean (b : bool)
| PNumber (n : Z)
| PString (s : jsstring)
| PObject                      (* an object that is not an array *)
| PArray (items : list element).

Inductive text :=
| Unparseable (s : jsstring)   (* [JSON.parse] throws; [""] is such a string *)
| Parses (v : parsed).         (* [JSON.parse] returns [v] *)

Inductive exn := SyntaxError | TypeError.

(** The values [history[0].path] can be. *)
Inductive value :=
| VNull
| VUndefined
| VString (s : jsstring).

#[global] Instance ProjectHistoryItem_eq_dec : EqDecision ProjectHistoryItem.
Proof. solve_decision. Defined.
#[global] Instance element_eq_dec : EqDecision element.
Proof. solve_decision. Defined.
#[global] Instance value_eq_dec : EqDecision value.
Proof. solve_decision. Defined.

(** The world the module acts on: the storage, and what has been written
    to the console. *)
Record World := mkWorld {
  localStorage : gmap jsstring text;
  console : list (jsstring * exn)
}.

(** ** Computations: state and exceptions *)

Inductive outcome (A : Type) :=
| Return (a : A)
| Throw (e : exn).
Arguments Return {A} a.
Arguments Throw {A} e.

Definition M (A : Type) : Type := World -> outcome A * World.

#[global] Instance outcome_ret : MRet outcome := fun A a => Return a.
#[global] Instance outcome_bind : MBind outcome := fun A B f m =>
  match m with
  | Return a => f a
  | Throw e => Throw e
  end.

#[global] Instance M_ret : MRet M := fun A a w => (Return a, w).
#[global] Instance M_bind : MBind M := fun A B f m w =>
  match m w with
  | (Return a, w') => f a w'
  | (Throw e, w') => (Throw e, w')
  end.

(** A computation that only returns or throws, run in a world. *)
Definition lift {A} (o : outcome A) : M A := fun w => (o, w).

(** [try { body } catch (error) { handler }]: what [body] did to the world
    before it threw stays done. *)
Definition try_catch {A} (body : M A) (handler : exn -> M A) : M A := fun w =>
  match body w with
  | (Return a, w') => (Return a, w')
  | (Throw e, w') => handler e w'
  end.

Definition exec {A} (m : M A) (w : World) : World := snd (m w).
Definition eval {A} (m : M A) (w : World) : outcome A := fst (m w).

(** *** The platform *)

Definition localStorage_getItem (key : jsstring) : M (option text) := fun w =>
  (Return (localStorage w !! key), w).

Definition localStorage_setItem (key : jsstring) (t : text) : M unit := fun w =>
  (Return tt, mkWorld (<[key := t]> (localStorage w)) (console w)).

Definition localStorage_removeItem (key : jsstring) : M unit := fun w =>
  (Return tt, mkWorld (delete key (localStorage w)) (console w)).

Definition console_error (msg : jsstring) (error : exn) : M unit := fun w =>
  (Return tt, mkWorld (localStorage w) (console w ++ [(msg, error)])).

Definition JSON_parse (t : text) : outcome parsed :=
  match t with
  | Unparseable _ => Throw SyntaxError
  | Parses v => Return v
  end.

Definition JSON_stringify (v : parsed) : text := Parses v.

(** [!stored] for what [getItem] returned: [null] and the empty string
    are falsy. *)
Definition falsy (stored : option text) : bool :=
  match stored with
  | None => true
  | Some (Unparseable []) => true
  | Some _ => false
  end.

(** [item.lastUsed] and [item.path]: reading a property of [null] throws. *)
Definition get_lastUsed (item : element) : outcome Z :=
  match item with
  | Null => Throw TypeError
  | Object o => Return (lastUsed o)
  end.

Definition get_path (item : element) : outcome value :=
  match item with
  | Null => Throw TypeError
  | Object o => Return (from_option VString VUndefined (path o))
  end.

(** [v !== s] for a string [s]. *)
Definition strict_ne (v : value) (s : jsstring) : bool :=
  negb (bool_decide (v = VString s)).

(** [Array.prototype.sort] with a comparator that may throw.  The sort is
    stable: an element moves behind another only when the comparator
    says it is greater.  An array of one element is returned without a
    call of the comparator. *)
Fixpoint sort_insert {A} (compareFn : A -> A -> outcome Z) (x : A) (l : list A)
  : outcome (list A) :=
  match l with
  | [] => Return [x]
  | y :: l' =>
      c ← compareFn x y;
      if 0 <? c then r ← sort_insert compareFn x l'; Return (y :: r)
      else Return (x :: l)
  end.

Fixpoint Array_sort {A} (compareFn : A -> A -> outcome Z) (l : list A)
  : outcome (list A) :=
  match l with
  | [] => Return []
  | x :: l' => s ← Array_sort compareFn l'; sort_insert compareFn x s
  end.

(** [items.sort(f)] on what [JSON.parse] returned: only an array has a
    [sort] to call. *)
Definition call_sort (items : parsed) (compareFn : element -> element -> outcome Z)
  : outcome (list element) :=
  match items with
  | PArray l => Array_sort compareFn l
  | _ => Throw TypeError
  end.

(** [history.filter(f)] with a callback that may throw. *)
Fixpoint Array_filter {A} (f : A -> outcome bool) (l : list A) : outcome (list A) :=
  match l with
  | [] => Return []
  | x :: l' =>
      b ← f x;
      r ← Array_filter f l';
      Return (if b : bool then x :: r else r)
  end.

(** ** The history store *)

(** The comparator [(a, b) => b.lastUsed - a.lastUsed]. *)
Definition compare_lastUsed (a b : element) : outcome Z :=
  lb ← get_lastUsed b; la ← get_lastUsed a; Return (lb - la).

(** The callback [item => item.path !== path]. *)
Definition path_differs (path : jsstring) (item : element) : outcome bool :=
  p ← get_path item; Return (strict_ne p path).

Definition MAX_HISTORY_ITEMS : nat := 10.
Definition STORAGE_KEY : jsstring := js "claudia-project-history".

Definition loadProjectHistory : M (list element) :=
  try_catch
    (stored ← localStorage_getItem STORAGE_KEY;
     if falsy stored then mret []
     else
       items ← lift (match stored with
                     | Some t => JSON_parse t
                     | None => Throw SyntaxError (* not reached: [null] is falsy *)
                     end);
       (* Sort by last used, most recent first *)
       lift (call_sort items compare_lastUsed))
    (fun error =>
       console_error (js "Failed to load project history:") error;;
       mret []).

(** [now] is what [Date.now()] returns during the call. *)
Definition saveProjectToHistory (now : Z) (path : jsstring) : M unit :=
  if negb (truthy path) || eqb (trim path) (js "") then mret tt
  else
    try_catch
      (history ← loadProjectHistory;
       history ← lift (Array_filter (path_differs path) history);
       let history :=
         Object (mkItem (Some path) now (Some (getProjectName path))) :: history in
       let history := take MAX_HISTORY_ITEMS history in
       localStorage_setItem STORAGE_KEY (JSON_stringify (PArray history)))
      (fun error => console_error (js "Failed to save project to history:") error).

Definition removeProjectFromHistory (path : jsstring) : M unit :=
  try_catch
    (history ← loadProjectHistory;
     filtered ← lift (Array_filter (path_differs path) history);
     localStorage_setItem STORAGE_KEY (JSON_stringify (PArray filtered)))
    (fun error => console_error (js "Failed to remove project from history:") error).

Definition clearProjectHistory : M unit :=
  try_catch
    (localStorage_removeItem STORAGE_KEY)
    (fun error => console_error (js "Failed to clear project history:") error).

Definition getMostRecentProject : M value :=
  history ← loadProjectHistory;
  if 0 <? Z.of_nat (length history) then
    match array_get history 0 with
    | Some item => lift (get_path item)
    | None => lift (Throw TypeError)
    end
  else mret VNull.

(** A path that [saveProjectToHistory] turns away: empty, or white space
    only. *)
Definition blank (path : jsstring) : Prop :=
  Forall (fun c => isWhiteSpace c = true) path.

#[global] Instance blank_dec path : Decision (blank path).
Proof. unfold blank. apply _. Defined.

(** The name as the specification words it: the last of the non-empty
    pieces between separators, or the fallback when there is none. *)
Definition deriveName (path : jsstring) : jsstring :=
  default Unknown_Project (last (filter (fun s => s <> []) (split slash path))).

(** ** The selector component

    Of the component, what matters to the store: the handlers that call
    it, and what a row of the dropdown shows and hands to them.  The
    [onChange] callback belongs to the parent, and [setIsOpen] and
    [setHistory] change the component's own state; [handleRemove]
    returns the history it passes to [setHistory]. *)

Definition handleSelect (now : Z) (path : jsstring) : M unit :=
  saveProjectToHistory now path.

Definition handleRemove (path : jsstring) : M (list element) :=
  removeProjectFromHistory path;;
  loadProjectHistory.

Record Row := mkRow {
  row_key : jsstring;               (* [key={item.path}] *)
  row_name : option jsstring;       (* [{item.name}] *)
  row_path : jsstring;              (* [{formatPath(item.path)}] *)
  row_onClick : jsstring;           (* the argument of [handleSelect] *)
  row_onRemove : jsstring           (* the argument of [handleRemove] *)
}.

(** The row for one item of [filteredHistory].  Without a [path] the
    component throws: [toLowerCase] and [startsWith] are called on
    [undefined]. *)
Definition render_item (item : ProjectHistoryItem) : outcome Row :=
  match path item with
  | Some p => Return (mkRow p (name item) (formatPath p) p p)
  | None => Throw TypeError
  end.

(** ** The operations as a caller issues them *)

Inductive op :=
| Save (now : Z) (path : jsstring)
| Remove (path : jsstring)
| Clear
| Load
| MostRecent.

Definition run_op (o : op) : M unit :=
  match o with
  | Save now path => saveProjectToHistory now path
  | Remove path => removeProjectFromHistory path
  | Clear => clearProjectHistory
  | Load => loadProjectHistory;; mret tt
  | MostRecent => getMostRecentProject;; mret tt
  end.

Definition run_ops (ops : list op) (w : World) : World :=
  foldl (fun w o => exec (run_op o) w) w ops.

(** ** Reading a world *)

(** The array the storage key holds; none when the key is absent or holds
    anything else. *)
Definition stored_items (w : World) : list element :=
  match localStorage w !! STORAGE_KEY with
  | Some (Parses (PArray l)) => l
  | _ => []
  end.

(** What [loadProjectHistory] returns in [w]. *)
Definition loaded (w : World) : list element :=
  match eval loadProjectHistory w with
  | Return l => l
  | Throw _ => []
  end.

Definition is_object (e : element) : Prop := e <> Null.

#[global] Instance is_object_dec e : Decision (is_object e).
Proof. unfold is_object. apply _. Defined.

(** Every element of the stored array is an object. *)
Definition objects_only (w : World) : Prop := Forall is_object (stored_items w).

(** [e] is an entry for [p]. *)
Definition has_path (p : jsstring) (e : element) : Prop :=
  match e with
  | Object o => path o = Some p
  | Null => False
  end.

#[global] Instance has_path_dec p e : Decision (has_path p e).
Proof. destruct e; simpl; apply _. Defined.

(** The entry [saveProjectToHistory] makes for [p] at time [now]. *)
Definition entry (now : Z) (p : jsstring) : element :=
  Object (mkItem (Some p) now (Some (getProjectName p))).

(** [b] is not more recent than [a]. *)
Definition not_newer (a b : element) : Prop :=
  match a, b with
  | Object x, Object y => lastUsed y <= lastUsed x
  | _, _ => True
  end.

(** On arrays of objects the comparator never throws, and [sort] and
    [filter] are the following functions. *)
Definition stamp (e : element) : Z :=
  match e with
  | Object o => lastUsed o
  | Null => 0
  end.

Definition stampR : relation element := fun a b => stamp b <= stamp a.

Fixpoint insertDesc (x : element) (l : list element) : list element :=
  match l with
  | [] => [x]
  | y :: l' => if 0 <? stamp y - stamp x then y :: insertDesc x l' else x :: l
  end.

Definition sortDesc (l : list element) : list element := foldr insertDesc [] l.

Definition others (p : jsstring) (l : list element) : list element :=
  filter (fun e => ~ has_path p e) l.

(** What [loadProjectHistory] makes of a stored array: the sorted array
    when all elements are objects; otherwise the comparator throws and
    the history counts as empty, unless the array is [[null]], which
    [sort] returns without comparing. *)
Definition sorted_view (l : list element) : list element :=
  if decide (Forall is_object l) then sortDesc l
  else match l with [x] => [x] | _ => [] end.

(** The stored array after [saveProjectToHistory] with an accepted path,
    and after [removeProjectFromHistory]: nothing is written when
    [filter] meets [null]. *)
Definition save_items (now : Z) (p : jsstring) (l : list element) : list element :=
  let history := sorted_view l in
  if decide (Forall is_object history)
  then take MAX_HISTORY_ITEMS (entry now p :: others p history)
  else l.

Definition remove_items (p : jsstring) (l : list element) : list element :=
  let history := sorted_view l in
  if decide (Forall is_object history) then others p history else l.

(** The world with one more line on the console. *)
Definition logged (w : World) (msg : jsstring) (e : exn) : World :=
  mkWorld (localStorage w) (console w ++ [(msg, e)]).

(** The stored array after one operation. *)
Definition step_items (o : op) (l : list element) : list element :=
  match o with
  | Save now p => if decide (blank p) then l else save_items now p l
  | Remove p => remove_items p l
  | Clear => []
  | Load | MostRecent => l
  end.

(** No stored entry was used after [t]. *)
Definition latest (t : Z) (w : World) : Prop :=
  Forall (fun e => stamp e <= t) (stored_items w).

(** The operation does not stamp an entry later than [t]. *)
Definition op_by (t : Z) (o : op) : Prop :=
  match o with
  | Save now _ => now <= t
  | _ => True
  end.

(** [loadProjectHistory] hands back objects only: the case in which
    [filter] in [saveProjectToHistory] and [removeProjectFromHistory]
    does not throw.  It fails only for a stored array that is [[null]]. *)
Definition loads_objects (w : World) : Prop := Forall is_object (loaded w).

(** After a save of [p] at [now]: [p] has one entry, stamped [now], and
    [loadProjectHistory] returns it first. *)
Definition refreshed (now : Z) (p : jsstring) (w : World) : Prop :=
  (exists rest, loaded w = entry now p :: rest
                /\ Forall (fun e => ~ has_path p e) rest)
  /\ length (filter (has_path p) (stored_items w)) = 1%nat.

(** Saves, each with the time [Date.now()] returns during it. *)
Definition saves (l : list (Z * jsstring)) : list op :=
  map (fun tp => Save tp.1 tp.2) l.

(** Going from [w] to [w'], the entry [e] came in and the oldest entry of
    [w], the last that [loadProjectHistory] returns, went out. *)
Definition evicts_oldest (w w' : World) (e : element) : Prop :=
  exists kept victim,
    loaded w = kept ++ [victim]
    /\ Forall (fun x => stamp victim <= stamp x) kept
    /\ stored_items w' = e :: kept
    /\ victim ∉ stored_items w'.

(** Every element of [l] is an entry for one of the paths [S]. *)
Definition paths_in (S : list jsstring) (l : list element) : Prop :=
  Forall (fun e => exists q, q ∈ S /\ has_path q e) l.

(** The storage with nothing under any key and a silent console. *)
Definition fresh : World := mkWorld ∅ [].

(** A piece of a path ends where the string ends or where the separator
    follows: [rest] is what comes after the piece. *)
Definition ends_piece (sep : char16) (rest : jsstring) : Prop :=
  rest = [] \/ exists rest', rest = sep :: rest'.

(** The key holds a string that parses to an array. *)
Definition holds_array (w : World) : Prop :=
  exists l, localStorage w !! STORAGE_KEY = Some (Parses (PArray l)).

(** The content under the key cannot be read as a history: there is no
    array, or the comparator throws on a [null] among two elements or
    more. *)
Definition unreadable (w : World) : Prop :=
  ~ holds_array w
  \/ exists l, localStorage w !! STORAGE_KEY = Some (Parses (PArray l))
               /\ Null ∈ l /\ (2 <= length l)%nat.

(** An object of the declared shape: [path] and [name] are there. *)
Definition valid_entry (e : element) : Prop :=
  exists p t n, e = Object (mkItem (Some p) t (Some n)).

(** The content under the key is absent, fails to parse, or is not an
    array of valid entries. *)
Definition malformed (w : World) : Prop :=
  match localStorage w !! STORAGE_KEY with
  | Some (Parses (PArray l)) => ~ Forall valid_entry l
  | _ => True
  end.

(** ** The rest of the selector component *)

(** [s.includes(t)] on strings: [t] occurs in [s]. *)
Fixpoint includes (t s : jsstring) : bool :=
  startsWith t s ||
  match s with
  | [] => false
  | _ :: s' => includes t s'
  end.

(** An integer inside a template literal: its decimal digits, with a
    minus sign when negative.  (Integers of fewer than 22 digits; the
    ones [formatDate] prints have at most two.) *)
Definition Number_toString (n : Z) : jsstring :=
  js (NilZero.string_of_int (Z.to_int n)).

(** [formatDate].  [now] is what [Date.now()] returns, and timestamps are
    integers, so [Math.floor (diff / k)] is the integer quotient.
    [toLocaleDateString timestamp] stands for
    [new Date(timestamp).toLocaleDateString()], which the locale of the
    host decides. *)
Definition formatDate (toLocaleDateString : Z -> jsstring) (now timestamp : Z)
  : jsstring :=
  let diff := now - timestamp in
  if diff <? 60000 then js "just now"
  else if diff <? 3600000 then Number_toString (diff / 60000) ++ js "m ago"
  else if diff <? 86400000 then Number_toString (diff / 3600000) ++ js "h ago"
  else if diff <? 604800000 then Number_toString (diff / 86400000) ++ js "d ago"
  else toLocaleDateString timestamp.

(** The callback of [filteredHistory]:
    [item.path.toLowerCase().includes(filter.toLowerCase()) ||
     item.name.toLowerCase().includes(filter.toLowerCase())].
    [toLowerCase] is the platform's; a method call on [undefined] or a
    property read on [null] throws, and [||] does not look at [name] when
    [path] matches. *)
Definition matches_filter (toLowerCase : jsstring -> jsstring)
    (filter : jsstring) (item : element) : outcome bool :=
  match item with
  | Null => Throw TypeError
  | Object o =>
      match path o with
      | None => Throw TypeError
      | Some p =>
          if includes (toLowerCase filter) (toLowerCase p) then Return true
          else match name o with
               | None => Throw TypeError
               | Some n => Return (includes (toLowerCase filter) (toLowerCase n))
               end
      end
  end.

Definition filteredHistory (toLowerCase : jsstring -> jsstring)
    (history : list element) (filter : jsstring) : outcome (list element) :=
  Array_filter (matches_filter toLowerCase filter) history.

(** The effect that runs when the dropdown opens:
    [setHistory(loadProjectHistory()); setFilter("")].  It returns the
    two values it sets. *)
Definition onOpen : M (list element * jsstring) :=
  history ← loadProjectHistory;
  mret (history, js "").

(** [path] starts with one of the three home prefixes, and [rest] is what
    follows the user name. *)
Definition home_shape (path rest : jsstring) : Prop :=
  (exists user,
     user <> [] /\ (slash ∉ user) /\ ends_piece slash rest
     /\ (path = js "/Users/" ++ user ++ rest \/ path = js "/home/" ++ user ++ rest))
  \/ (exists d user,
        isUpper d = true /\ (backslash ∉ user) /\ ends_piece backslash rest
        /\ path = d :: js ":\Users\" ++ user ++ rest).

(** [toLowerCase] on strings of ASCII code units: the letters A to Z are
    lowered, the rest is kept. *)
Definition toLowerCase_ascii (s : jsstring) : jsstring :=
  map (fun c => if isUpper c then (c + 32)%N else c) s.

#[global] Instance exn_eq_dec : EqDecision exn.
Proof. solve_decision. Defined.
#[global] Instance outcome_eq_dec {A} `{EqDecision A} : EqDecision (outcome A).
Proof. solve_decision. Defined.

(** The key is absent, or holds the empty string or an array of objects:
    the content on which nothing fails. *)
Definition well_formed (w : World) : Prop :=
  match localStorage w !! STORAGE_KEY with
  | None | Some (Unparseable []) => True
  | Some (Parses (PArray l)) => Forall is_object l
  | Some _ => False
  end.

#[global] Instance well_formed_dec w : Decision (well_formed w).
Proof.
  unfold well_formed.
  destruct (localStorage w !! STORAGE_KEY) as [[[|c s]|[]]|]; apply _.
Defined.

(** No two elements of [l] are entries for the same path. *)
Definition unique_paths (l : list element) : Prop :=
  forall q, (length (filter (has_path q) l) <= 1)%nat.

(** A stored array as the module itself leaves it: at most
    [MAX_HISTORY_ITEMS] entries, each made by [saveProjectToHistory] for a
    path it accepts, no two for the same path. *)
Definition kept (l : list element) : Prop :=
  Forall (fun e => exists now p, ~ blank p /\ e = entry now p) l
  /\ unique_paths l
  /\ (length l <= MAX_HISTORY_ITEMS)%nat.

(** * Properties *)

(** ** Strings *)

Section StringFacts.

Implicit Types (s t p : jsstring) (c sep : char16).

Lemma startsWith_app p s : startsWith p (p ++ s) = true.
Proof.
  induction p as [|a p IH]; simpl; [done|].
  by rewrite N.eqb_refl, IH.
Qed.

Lemma replace_prefix p r s : replace p r (p ++ s) = r ++ s.
Proof.
  destruct p as [|a p]; simpl.
  - by destruct s.
  - by rewrite N.eqb_refl, startsWith_app, drop_app_length.
Qed.

Lemma split_nonempty sep s : split sep s <> [].
Proof.
  destruct s as [|c s]; simpl; [done|].
  destruct (N.eqb c sep); [done|]. by destruct (split sep s).
Qed.

Lemma split_no_sep sep s : sep ∉ s -> split sep s = [s].
Proof.
  induction s as [|c s IH]; intros H; simpl; [done|].
  apply not_elem_of_cons in H as [Hc Hs].
  destruct (N.eqb_spec c sep); [congruence|]. by rewrite IH.
Qed.

Lemma split_app_sep sep s t :
  sep ∉ s -> split sep (s ++ sep :: t) = s :: split sep t.
Proof.
  induction s as [|c s IH]; intros H; simpl.
  - by rewrite N.eqb_refl.
  - apply not_elem_of_cons in H as [Hc Hs].
    destruct (N.eqb_spec c sep); [congruence|]. by rewrite IH.
Qed.

(** A piece that is followed by the end of the string or by a separator. *)
Lemma split_piece sep s t :
  sep ∉ s -> (t = [] \/ exists t', t = sep :: t') ->
  exists rest, split sep (s ++ t) = s :: rest.
Proof.
  intros Hs [->|[t' ->]].
  - rewrite app_nil_r, split_no_sep by done. by exists [].
  - rewrite split_app_sep by done. eauto.
Qed.

Lemma trimStart_nil s : trimStart s = [] <-> Forall (fun c => isWhiteSpace c = true) s.
Proof.
  induction s as [|c s IH]; simpl; [by split; constructor|].
  destruct (isWhiteSpace c) eqn:E.
  - rewrite IH. split; [by constructor|by inversion 1].
  - split; [done|]. inversion 1; congruence.
Qed.

Lemma trimStart_head s c u : trimStart s = c :: u -> isWhiteSpace c = false.
Proof.
  induction s as [|d s IH]; simpl; [done|].
  destruct (isWhiteSpace d) eqn:E; [done|]. congruence.
Qed.

Lemma trim_nil s : trim s = [] <-> Forall (fun c => isWhiteSpace c = true) s.
Proof.
  unfold trim, trimEnd. split.
  - intros H. apply (f_equal (@rev char16)) in H.
    rewrite rev_involutive in H. simpl in H.
    apply trimStart_nil in H. rewrite Forall_forall in H.
    apply trimStart_nil.
    destruct (trimStart s) as [|c u] eqn:E; [done|].
    apply trimStart_head in E.
    rewrite (H c) in E; [done|].
    apply list_elem_of_In, in_rev. rewrite rev_involutive. by left.
  - intros H. apply trimStart_nil in H. by rewrite H.
Qed.

Lemma trimStart_snoc s c :
  isWhiteSpace c = false -> trimStart (s ++ [c]) = trimStart s ++ [c].
Proof.
  intros Hc. induction s as [|d s IH]; simpl; [by rewrite Hc|].
  by destruct (isWhiteSpace d).
Qed.

(** [trim] keeps the first code unit that is not white space. *)
Lemma trim_first s c u : trimStart s = c :: u -> exists v, trim s = c :: v.
Proof.
  intros E. pose proof (trimStart_head _ _ _ E) as Hc.
  unfold trim, trimEnd. rewrite E. simpl.
  rewrite trimStart_snoc, rev_unit by done. eauto.
Qed.

End StringFacts.

Lemma trim_not_blank path : ~ blank path -> ~ blank (trim path).
Proof.
  unfold blank. intros H Ht.
  destruct (trimStart path) as [|c u] eqn:E.
  { by apply trimStart_nil in E. }
  pose proof (trimStart_head _ _ _ E) as Hc.
  destruct (trim_first _ _ _ E) as [v Hv]. rewrite Hv in Ht.
  apply Forall_inv in Ht. congruence.
Qed.

Lemma guard_blank path :
  negb (truthy path) || eqb (trim path) (js "") = true <-> blank path.
Proof.
  unfold eqb, blank. simpl. rewrite orb_true_iff, bool_decide_eq_true, trim_nil.
  split; [|auto]. intros [H|H]; [|done]. destruct path; [constructor|done].
Qed.

(** ** getProjectName *)

Lemma array_get_last {A} (l : list A) :
  array_get l (Z.of_nat (length l) - 1) = last l.
Proof.
  unfold array_get. destruct l as [|x l _] using rev_ind; [done|].
  rewrite length_app, last_snoc. simpl.
  destruct (Z.ltb_spec (Z.of_nat (length l + 1) - 1) 0); [lia|].
  replace (Z.to_nat (Z.of_nat (length l + 1) - 1)) with (length l) by lia.
  by rewrite list_lookup_middle.
Qed.

Lemma getProjectName_deriveName path : getProjectName path = deriveName path.
Proof.
  unfold getProjectName, deriveName. cbv zeta. rewrite array_get_last.
  assert (E : filter (fun s => truthy s = true) (split slash path)
              = filter (fun s => s <> []) (split slash path)).
  { apply list_filter_iff. intros [|c s]; simpl; split; done. }
  rewrite E.
  destruct (last _) as [s|] eqn:L; simpl; [|done].
  apply last_Some_elem_of, list_elem_of_filter in L as [L _].
  by destruct s.
Qed.

Lemma split_app sep (s t : jsstring) :
  split sep (s ++ sep :: t) = split sep s ++ split sep t.
Proof.
  induction s as [|c s IH]; simpl.
  - by rewrite N.eqb_refl.
  - destruct (N.eqb c sep); [by rewrite IH|].
    rewrite IH. pose proof (split_nonempty sep s). by destruct (split sep s).
Qed.

Lemma split_replicate sep k :
  split sep (replicate k sep) = replicate (S k) [].
Proof.
  induction k as [|k IH]; simpl; [done|].
  by rewrite N.eqb_refl, IH.
Qed.

Lemma split_trailing sep (seg : jsstring) k :
  sep ∉ seg -> split sep (seg ++ replicate k sep) = seg :: replicate k [].
Proof.
  intros H. destruct k as [|k]; simpl.
  - by rewrite app_nil_r, split_no_sep.
  - by rewrite split_app_sep, split_replicate.
Qed.

Lemma filter_replicate_nil k :
  filter (fun s : jsstring => s <> []) (replicate k []) = [].
Proof. induction k; [done|]. simpl. by rewrite filter_cons_False by auto. Qed.

(** The name of a path that ends in the piece [seg], followed by any
    number of separators, is [seg]. *)
Lemma deriveName_last_piece pre seg k :
  seg <> [] -> slash ∉ seg ->
  deriveName (pre ++ slash :: seg ++ replicate k slash) = seg
  /\ deriveName (seg ++ replicate k slash) = seg.
Proof.
  intros Hne Hs. unfold deriveName.
  rewrite split_app, split_trailing, filter_app by done.
  rewrite !filter_cons_True, filter_replicate_nil by done.
  split; [|done]. by rewrite last_snoc.
Qed.

Lemma deriveName_separators k : deriveName (replicate k slash) = Unknown_Project.
Proof.
  unfold deriveName. rewrite split_replicate.
  by rewrite filter_replicate_nil.
Qed.

(** ** formatPath *)

Lemma array_get_0 {A} (x : A) l : array_get (x :: l) 0 = Some x.
Proof. done. Qed.

Lemma array_get_2 {A} (x y z : A) l : array_get (x :: y :: z :: l) 2 = Some z.
Proof. done. Qed.

Lemma formatPath_Users user rest :
  user <> [] -> slash ∉ user -> ends_piece slash rest ->
  formatPath (js "/Users/" ++ user ++ rest) = js "~" ++ rest.
Proof.
  intros Hne Hs Hr. unfold formatPath, formatHome.
  rewrite startsWith_app.
  destruct (split_piece slash user rest Hs Hr) as [tl Htl].
  assert (E : split slash (js "/Users/" ++ user ++ rest)
              = [] :: js "Users" :: user :: tl).
  { simpl. by rewrite Htl. }
  rewrite E, array_get_2.
  destruct user as [|c user]; [done|]. cbn [truthy].
  by rewrite (app_assoc (js "/Users/")), replace_prefix.
Qed.

Lemma formatPath_home user rest :
  user <> [] -> slash ∉ user -> ends_piece slash rest ->
  formatPath (js "/home/" ++ user ++ rest) = js "~" ++ rest.
Proof.
  intros Hne Hs Hr. unfold formatPath.
  assert (E0 : formatHome (js "/Users/") (js "/home/" ++ user ++ rest) = None)
    by done.
  rewrite E0. unfold formatHome. rewrite startsWith_app.
  destruct (split_piece slash user rest Hs Hr) as [tl Htl].
  assert (E : split slash (js "/home/" ++ user ++ rest)
              = [] :: js "home" :: user :: tl).
  { simpl. by rewrite Htl. }
  rewrite E, array_get_2.
  destruct user as [|c user]; [done|]. cbn [truthy].
  by rewrite (app_assoc (js "/home/")), replace_prefix.
Qed.

Lemma isUpper_range d : isUpper d = true -> (65 <= d <= 90)%N.
Proof. unfold isUpper. intros [?%N.leb_le ?%N.leb_le]%andb_true_iff. lia. Qed.

Lemma formatHome_head home c d path :
  startsWith [c] home = true -> c <> d -> formatHome home (d :: path) = None.
Proof.
  intros H Hcd. unfold formatHome.
  destruct home as [|a home]; [done|]. simpl in *.
  rewrite andb_true_r in H. apply N.eqb_eq in H as <-.
  by destruct (N.eqb_spec c d).
Qed.

Lemma formatPath_Windows d user rest :
  isUpper d = true -> backslash ∉ user -> ends_piece backslash rest ->
  formatPath (d :: js ":\Users\" ++ user ++ rest) = js "~" ++ rest.
Proof.
  intros Hd Hs Hr. pose proof (isUpper_range d Hd) as Hrange.
  assert (Hd47 : N.eqb 47 d = false) by (apply N.eqb_neq; lia).
  assert (Hd92 : N.eqb d 92 = false) by (apply N.eqb_neq; lia).
  unfold formatPath.
  rewrite !(formatHome_head _ 47%N d) by (done || lia).
  unfold formatWindows, matchesWindowsUsers.
  rewrite Hd, (startsWith_app (js ":\Users\")). simpl andb. cbv iota.
  destruct (split_piece backslash user rest Hs Hr) as [tl Htl].
  assert (E : split backslash (d :: js ":\Users\" ++ user ++ rest)
              = [d; 58%N] :: js "Users" :: user :: tl).
  { simpl. unfold backslash in *. by rewrite Hd92, Htl. }
  rewrite E. cbv zeta. rewrite array_get_0, array_get_2.
  assert (P : d :: js ":\Users\" ++ user ++ rest
              = ([d; 58%N] ++ js "\Users\" ++ user) ++ rest).
  { rewrite <- !app_assoc. done. }
  rewrite P, replace_prefix.
  match goal with
  | |- context [2 <? ?n] => destruct (Z.ltb_spec 2 n) as [_|Hlen]
  end; [done|].
  rewrite !length_cons in Hlen. lia.
Qed.

(** Without a user name after the prefix, the macOS and Linux blocks leave
    the path alone. *)
Lemma formatPath_no_user rest :
  ends_piece slash rest ->
  formatPath (js "/Users/" ++ rest) = js "/Users/" ++ rest
  /\ formatPath (js "/home/" ++ rest) = js "/home/" ++ rest.
Proof.
  intros Hr.
  destruct (split_piece slash [] rest (not_elem_of_nil _) Hr) as [tl Htl].
  simpl in Htl. unfold formatPath, formatHome.
  split.
  - rewrite startsWith_app.
    assert (E : split slash (js "/Users/" ++ rest) = [] :: js "Users" :: [] :: tl).
    { simpl. by rewrite Htl. }
    by rewrite E.
  - assert (E0 : startsWith (js "/Users/") (js "/home/" ++ rest) = false) by done.
    rewrite E0, startsWith_app.
    assert (E : split slash (js "/home/" ++ rest) = [] :: js "home" :: [] :: tl).
    { simpl. by rewrite Htl. }
    by rewrite E.
Qed.

Lemma formatPath_other path :
  startsWith (js "/Users/") path = false ->
  startsWith (js "/home/") path = false ->
  matchesWindowsUsers path = false ->
  formatPath path = path.
Proof.
  intros H1 H2 H3. unfold formatPath, formatHome, formatWindows.
  by rewrite H1, H2, H3.
Qed.

(** ** Sorting and filtering arrays of objects *)

Section Arrays.

Implicit Types (l : list element) (x y e : element).

Lemma sort_insert_objects x l :
  is_object x -> Forall is_object l ->
  sort_insert compare_lastUsed x l = Return (insertDesc x l).
Proof.
  intros Hx Hl. induction Hl as [|y l Hy Hl IH]; simpl; [done|].
  destruct x as [|ox]; [done|]. destruct y as [|oy]; [done|].
  simpl in *. destruct (0 <? lastUsed oy - lastUsed ox); [|done].
  by rewrite IH.
Qed.

Lemma insertDesc_Forall (P : element -> Prop) x l :
  P x -> Forall P l -> Forall P (insertDesc x l).
Proof.
  intros Hx Hl. induction Hl as [|y l Hy Hl IH]; simpl; [by repeat constructor|].
  destruct (0 <? stamp y - stamp x); by repeat constructor.
Qed.

Lemma sortDesc_Forall (P : element -> Prop) l :
  Forall P l -> Forall P (sortDesc l).
Proof.
  induction 1; simpl; [done|]. by apply insertDesc_Forall.
Qed.

Lemma Array_sort_objects l :
  Forall is_object l -> Array_sort compare_lastUsed l = Return (sortDesc l).
Proof.
  induction 1 as [|x l Hx Hl IH]; simpl; [done|].
  rewrite IH. simpl. apply sort_insert_objects; [done|].
  by apply sortDesc_Forall.
Qed.

Lemma sortDesc_nil_inv l : sortDesc l = [] -> l = [].
Proof.
  destruct l as [|x l]; [done|]. simpl.
  destruct (sortDesc l); simpl; [done|]. by destruct (0 <? _).
Qed.

(** With a [null] among two elements or more, the comparator throws; an
    array that holds [null] alone is returned as it is. *)
Lemma Array_sort_null l :
  ~ Forall is_object l ->
  Array_sort compare_lastUsed l
  = match l with [x] => Return [x] | _ => Throw TypeError end.
Proof.
  induction l as [|x l IH]; intros H; [by destruct H|]. simpl.
  destruct (decide (Forall is_object l)) as [Hl|Hl].
  - rewrite Array_sort_objects by done. simpl.
    destruct x as [|ox]; [|by destruct H; constructor].
    destruct l as [|y l]; [done|].
    destruct (sortDesc (y :: l)) as [|z k] eqn:E.
    { by apply sortDesc_nil_inv in E. }
    simpl. assert (Hz : is_object z).
    { eapply (Forall_inv (l:=k)). rewrite <- E. by apply sortDesc_Forall. }
    by destruct z.
  - rewrite IH by done. destruct l as [|y [|z l]]; [by destruct Hl| |done].
    simpl. destruct y; [done|]. destruct Hl. by repeat constructor.
Qed.

Lemma Array_filter_objects p l :
  Forall is_object l -> Array_filter (path_differs p) l = Return (others p l).
Proof.
  unfold others. induction 1 as [|x l Hx Hl IH]; simpl; [done|].
  destruct x as [|o]; [done|]. simpl. rewrite IH. simpl. f_equal.
  unfold strict_ne. destruct (path o) as [q|] eqn:E; simpl.
  - case_bool_decide as Hq; simpl.
    + rewrite filter_cons_False; [done|]. simpl. rewrite E. intros []. congruence.
    + rewrite filter_cons_True; [done|]. simpl. rewrite E. congruence.
  - rewrite filter_cons_True; [done|]. simpl. by rewrite E.
Qed.

Lemma Array_filter_null p l :
  ~ Forall is_object l -> Array_filter (path_differs p) l = Throw TypeError.
Proof.
  induction l as [|x l IH]; intros H; [by destruct H|]. simpl.
  destruct x as [|o]; [done|]. simpl.
  rewrite IH; [done|]. intros Hl. apply H. by constructor.
Qed.

Lemma insertDesc_perm x l : insertDesc x l ≡ₚ x :: l.
Proof.
  induction l as [|y l IH]; simpl; [done|].
  destruct (0 <? stamp y - stamp x); [|done].
  rewrite IH. apply Permutation_swap.
Qed.

Lemma sortDesc_perm l : sortDesc l ≡ₚ l.
Proof.
  induction l as [|x l IH]; simpl; [done|]. by rewrite insertDesc_perm, IH.
Qed.

Lemma insertDesc_sorted x l :
  StronglySorted stampR l -> StronglySorted stampR (insertDesc x l).
Proof.
  induction 1 as [|y l Hl IH Hy]; simpl; [by repeat constructor|].
  destruct (Z.ltb_spec 0 (stamp y - stamp x)).
  - constructor; [done|]. rewrite insertDesc_perm. constructor; [|done].
    unfold stampR. lia.
  - constructor; [by constructor|]. constructor; [unfold stampR; lia|].
    eapply Forall_impl; [exact Hy|]. unfold stampR. intros; simpl in *. lia.
Qed.

Lemma sortDesc_sorted l : StronglySorted stampR (sortDesc l).
Proof.
  induction l; simpl; [constructor|]. by apply insertDesc_sorted.
Qed.

Lemma insertDesc_front x l : Forall (stampR x) l -> insertDesc x l = x :: l.
Proof.
  destruct 1 as [|y l Hy Hl]; simpl; [done|].
  unfold stampR in Hy. by destruct (Z.ltb_spec 0 (stamp y - stamp x)); [lia|].
Qed.

(** Sorting leaves a sorted array as it is. *)
Lemma sortDesc_id l : StronglySorted stampR l -> sortDesc l = l.
Proof.
  induction 1 as [|x l Hl IH Hx]; simpl; [done|].
  rewrite IH. by apply insertDesc_front.
Qed.

Lemma StronglySorted_sublist (R : relation element) l k :
  k `sublist_of` l -> StronglySorted R l -> StronglySorted R k.
Proof.
  induction 1 as [|x k l Hs IH|x k l Hs IH]; intros H; [done| |].
  - apply StronglySorted_cons in H as [Hx Hl].
    apply StronglySorted_cons. split; [|auto].
    rewrite Forall_forall in *. intros y Hy. apply Hx.
    by eapply elem_of_sublist.
  - apply StronglySorted_cons in H as [_ Hl]. auto.
Qed.

Lemma stampR_not_newer l :
  StronglySorted stampR l -> StronglySorted not_newer l.
Proof.
  induction 1 as [|x l Hl IH Hx]; constructor; [done|].
  eapply Forall_impl; [exact Hx|]. intros y. unfold stampR.
  by destruct x, y.
Qed.

End Arrays.

(** ** The store, operation by operation *)

(** Closed decidable facts, by evaluation. *)
Ltac by_evaluation := apply (bool_decide_unpack _); vm_compute; exact I.

Ltac unfold_M :=
  unfold mbind, M_bind, mret, M_ret, lift, try_catch, exec, eval,
    localStorage_getItem, localStorage_setItem, localStorage_removeItem,
    console_error, JSON_stringify in *.

Section Store.

Implicit Types (w : World) (l : list element) (p : jsstring).

Lemma loadProjectHistory_eq w :
  loadProjectHistory w =
  match localStorage w !! STORAGE_KEY with
  | None | Some (Unparseable []) => (Return [], w)
  | Some (Unparseable (_ :: _)) =>
      (Return [], logged w (js "Failed to load project history:") SyntaxError)
  | Some (Parses (PArray l)) =>
      match Array_sort compare_lastUsed l with
      | Return r => (Return r, w)
      | Throw e => (Return [], logged w (js "Failed to load project history:") e)
      end
  | Some (Parses _) =>
      (Return [], logged w (js "Failed to load project history:") TypeError)
  end.
Proof.
  unfold loadProjectHistory. unfold_M.
  destruct (localStorage w !! STORAGE_KEY) as [[[|c s]|v]|]; try done.
  by destruct v.
Qed.

Lemma Array_sort_view l :
  match Array_sort compare_lastUsed l with
  | Return r => r
  | Throw _ => []
  end = sorted_view l.
Proof.
  unfold sorted_view. destruct (decide (Forall is_object l)) as [H|H].
  - by rewrite Array_sort_objects.
  - rewrite Array_sort_null by done. by destruct l as [|x [|y l]].
Qed.

(** [loadProjectHistory] returns: it never throws, and it leaves the
    storage as it is. *)
Lemma loadProjectHistory_returns w :
  exists w', loadProjectHistory w = (Return (sorted_view (stored_items w)), w')
             /\ localStorage w' = localStorage w.
Proof.
  rewrite loadProjectHistory_eq. unfold stored_items.
  destruct (localStorage w !! STORAGE_KEY) as [[[|c s]|v]|]; eauto.
  destruct v; eauto.
  rewrite <- Array_sort_view.
  destruct (Array_sort compare_lastUsed items); eauto.
Qed.

Lemma loaded_eq w : loaded w = sorted_view (stored_items w).
Proof.
  unfold loaded, eval. by destruct (loadProjectHistory_returns w) as (w' & -> & _).
Qed.

Lemma stored_items_storage w w' :
  localStorage w' = localStorage w -> stored_items w' = stored_items w.
Proof. unfold stored_items. by intros ->. Qed.

Lemma stored_items_insert w l c :
  stored_items (mkWorld (<[STORAGE_KEY := Parses (PArray l)]> (localStorage w)) c) = l.
Proof. unfold stored_items. simpl. by rewrite lookup_insert_eq. Qed.

Lemma Array_filter_view p l :
  Array_filter (path_differs p) l
  = if decide (Forall is_object l) then Return (others p l) else Throw TypeError.
Proof.
  destruct (decide _); [by apply Array_filter_objects|by apply Array_filter_null].
Qed.

Lemma saveProjectToHistory_blank now p w :
  blank p -> saveProjectToHistory now p w = (Return tt, w).
Proof.
  intros H. unfold saveProjectToHistory.
  apply guard_blank in H. by rewrite H.
Qed.

Lemma saveProjectToHistory_accepted now p w :
  ~ blank p ->
  eval (saveProjectToHistory now p) w = Return tt
  /\ stored_items (exec (saveProjectToHistory now p) w)
     = save_items now p (stored_items w).
Proof.
  intros H. unfold saveProjectToHistory.
  destruct (negb (truthy p) || eqb (trim p) (js "")) eqn:G.
  { by apply guard_blank in G. }
  destruct (loadProjectHistory_returns w) as (w' & Hload & Hst).
  unfold_M. rewrite Hload. simpl. rewrite Array_filter_view. unfold save_items.
  cbv zeta. destruct (decide _); simpl.
  - split; [done|]. by rewrite stored_items_insert.
  - split; [done|]. by apply stored_items_storage.
Qed.

Lemma removeProjectFromHistory_eq p w :
  eval (removeProjectFromHistory p) w = Return tt
  /\ stored_items (exec (removeProjectFromHistory p) w)
     = remove_items p (stored_items w).
Proof.
  unfold removeProjectFromHistory.
  destruct (loadProjectHistory_returns w) as (w' & Hload & Hst).
  unfold_M. rewrite Hload. simpl. rewrite Array_filter_view. unfold remove_items.
  cbv zeta. destruct (decide _); simpl.
  - split; [done|]. by rewrite stored_items_insert.
  - split; [done|]. by apply stored_items_storage.
Qed.

Lemma clearProjectHistory_eq w :
  eval clearProjectHistory w = Return tt
  /\ stored_items (exec clearProjectHistory w) = [].
Proof.
  unfold clearProjectHistory, stored_items. unfold_M. simpl.
  by rewrite lookup_delete_eq.
Qed.

Lemma getMostRecentProject_eq w :
  eval getMostRecentProject w
  = match loaded w with
    | [] => Return VNull
    | item :: _ => get_path item
    end
  /\ stored_items (exec getMostRecentProject w) = stored_items w.
Proof.
  rewrite loaded_eq. unfold getMostRecentProject.
  destruct (loadProjectHistory_returns w) as (w' & Hload & Hst).
  unfold_M. rewrite Hload.
  destruct (sorted_view (stored_items w)) as [|item h]; simpl.
  - split; [done|]. by apply stored_items_storage.
  - split; [done|]. by apply stored_items_storage.
Qed.

Lemma run_op_stored o w :
  stored_items (exec (run_op o) w) = step_items o (stored_items w).
Proof.
  destruct o as [now p|p| | |]; simpl.
  - destruct (decide (blank p)) as [H|H].
    + unfold exec. by rewrite saveProjectToHistory_blank.
    + by apply saveProjectToHistory_accepted.
  - apply removeProjectFromHistory_eq.
  - apply clearProjectHistory_eq.
  - apply stored_items_storage.
    destruct (loadProjectHistory_returns w) as (w' & Hload & Hst).
    unfold_M. by rewrite Hload.
  - destruct (getMostRecentProject_eq w) as [_ <-].
    apply stored_items_storage. unfold_M.
    by destruct (getMostRecentProject w) as [[v|e] w'].
Qed.

Lemma run_ops_stored ops w :
  stored_items (run_ops ops w) = foldl (fun l o => step_items o l) (stored_items w) ops.
Proof.
  revert w. induction ops as [|o ops IH]; intros w; simpl; [done|].
  by rewrite IH, run_op_stored.
Qed.

End Store.

(** ** The stored array as a list *)

Section Items.

Implicit Types (l : list element) (p q : jsstring) (P : element -> Prop).

Lemma sorted_view_objects l : Forall is_object l -> sorted_view l = sortDesc l.
Proof. intros H. unfold sorted_view. by rewrite decide_True. Qed.

Lemma sorted_view_Forall P l : Forall P l -> Forall P (sorted_view l).
Proof.
  intros H. unfold sorted_view. destruct (decide _).
  - by apply sortDesc_Forall.
  - destruct l as [|x [|y l]]; [done..|constructor].
Qed.

Lemma sorted_view_length l : (length (sorted_view l) <= length l)%nat.
Proof.
  unfold sorted_view. destruct (decide _).
  - by rewrite sortDesc_perm.
  - destruct l as [|x [|y l]]; simpl; lia.
Qed.

Lemma others_Forall P p l : Forall P l -> Forall P (others p l).
Proof.
  rewrite !Forall_forall. intros H e He.
  apply H. by apply list_elem_of_filter in He as [_ ?].
Qed.

Lemma others_none p l : Forall (fun e => ~ has_path p e) (others p l).
Proof. apply Forall_forall. intros e He. by apply list_elem_of_filter in He as [? _]. Qed.

Lemma others_id p l : Forall (fun e => ~ has_path p e) l -> others p l = l.
Proof.
  induction 1 as [|x l Hx Hl IH]; [done|].
  unfold others in *. by rewrite filter_cons_True, IH.
Qed.

Lemma others_sorted p l :
  StronglySorted stampR l -> StronglySorted stampR (others p l).
Proof. apply StronglySorted_sublist, sublist_filter. Qed.

Lemma take_sorted n l :
  StronglySorted stampR l -> StronglySorted stampR (take n l).
Proof. apply StronglySorted_sublist, sublist_take. Qed.

Lemma save_items_Forall P now p l :
  P (entry now p) -> Forall P l -> Forall P (save_items now p l).
Proof.
  intros Hp Hl. unfold save_items. cbv zeta. destruct (decide _); [|done].
  apply Forall_take. constructor; [done|].
  by apply others_Forall, sorted_view_Forall.
Qed.

Lemma remove_items_Forall P p l : Forall P l -> Forall P (remove_items p l).
Proof.
  intros Hl. unfold remove_items. cbv zeta. destruct (decide _); [|done].
  by apply others_Forall, sorted_view_Forall.
Qed.

(** What holds of every stored element, and of an entry an operation may
    add, holds of every stored element afterwards. *)
Lemma step_items_Forall P o l :
  (forall now p, o = Save now p -> P (entry now p)) ->
  Forall P l -> Forall P (step_items o l).
Proof.
  intros Ho Hl. destruct o as [now p|p| | |]; simpl; try done.
  - destruct (decide _); [done|]. apply save_items_Forall; eauto.
  - by apply remove_items_Forall.
Qed.

Lemma save_items_objects now p l :
  Forall is_object l ->
  save_items now p l = take MAX_HISTORY_ITEMS (entry now p :: others p (sortDesc l)).
Proof.
  intros H. unfold save_items. cbv zeta. rewrite sorted_view_objects by done.
  by rewrite decide_True by by apply sortDesc_Forall.
Qed.

Lemma remove_items_objects p l :
  Forall is_object l -> remove_items p l = others p (sortDesc l).
Proof.
  intros H. unfold remove_items. cbv zeta. rewrite sorted_view_objects by done.
  by rewrite decide_True by by apply sortDesc_Forall.
Qed.

(** The bound: no operation lets the stored array grow beyond
    [MAX_HISTORY_ITEMS]. *)
Lemma step_items_bound o l :
  (length l <= MAX_HISTORY_ITEMS)%nat ->
  (length (step_items o l) <= MAX_HISTORY_ITEMS)%nat.
Proof.
  intros H. destruct o as [now p|p| | |]; simpl; try done; try lia.
  - destruct (decide _); [done|]. unfold save_items. cbv zeta.
    destruct (decide _); [|done]. rewrite length_take. lia.
  - unfold remove_items. cbv zeta. destruct (decide _); [|done].
    unfold others. etrans; [apply length_filter|].
    etrans; [apply sorted_view_length|done].
Qed.

Lemma filter_has_path_none p l :
  Forall (fun e => ~ has_path p e) l -> filter (has_path p) l = [].
Proof.
  induction 1 as [|x l Hx Hl IH]; [done|]. by rewrite filter_cons_False.
Qed.

Lemma sorted_view_stampR l : StronglySorted stampR (sorted_view l).
Proof.
  unfold sorted_view. destruct (decide _); [apply sortDesc_sorted|].
  destruct l as [|x [|y l]]; repeat constructor.
Qed.

Lemma sorted_view_fix l :
  Forall is_object l -> StronglySorted stampR l -> sorted_view l = l.
Proof.
  intros Ho Hs. rewrite sorted_view_objects by done. by apply sortDesc_id.
Qed.

Lemma sorted_view_perm l : Forall is_object l -> sorted_view l ≡ₚ l.
Proof. intros H. rewrite sorted_view_objects by done. apply sortDesc_perm. Qed.

End Items.

Section Saving.

Implicit Types (w : World) (p q : jsstring).

Lemma objects_only_loads w : objects_only w -> loads_objects w.
Proof.
  unfold objects_only, loads_objects. intros H.
  rewrite loaded_eq. by apply sorted_view_Forall.
Qed.

Lemma loaded_sorted w : StronglySorted stampR (loaded w).
Proof. rewrite loaded_eq. apply sorted_view_stampR. Qed.

(** What an accepted save stores. *)
Lemma saved_items now p w :
  ~ blank p -> loads_objects w ->
  stored_items (exec (saveProjectToHistory now p) w)
  = entry now p :: take 9 (others p (loaded w)).
Proof.
  intros Hp Hw. destruct (saveProjectToHistory_accepted now p w Hp) as [_ ->].
  unfold loads_objects in Hw. rewrite loaded_eq in *.
  unfold save_items. cbv zeta. by rewrite decide_True.
Qed.

Lemma saved_objects_only now p w :
  ~ blank p -> loads_objects w ->
  objects_only (exec (saveProjectToHistory now p) w).
Proof.
  intros Hp Hw. unfold objects_only. rewrite saved_items by done.
  constructor; [done|]. by apply Forall_take, others_Forall.
Qed.

(** What [loadProjectHistory] returns after an accepted save made at the
    latest time: the new entry, then the nine most recent others. *)
Lemma saved_loaded now p w :
  ~ blank p -> loads_objects w ->
  Forall (fun e => stamp e <= now) (loaded w) ->
  loaded (exec (saveProjectToHistory now p) w)
  = entry now p :: take 9 (others p (loaded w)).
Proof.
  intros Hp Hw Hnow. rewrite loaded_eq, saved_items by done.
  apply sorted_view_fix.
  - constructor; [done|]. by apply Forall_take, others_Forall.
  - apply StronglySorted_cons. split.
    + by apply Forall_take, others_Forall.
    + apply take_sorted, others_sorted, loaded_sorted.
Qed.

Lemma saved_refreshed now p w :
  ~ blank p -> loads_objects w ->
  Forall (fun e => stamp e <= now) (loaded w) ->
  refreshed now p (exec (saveProjectToHistory now p) w).
Proof.
  intros Hp Hw Hnow. split.
  - rewrite saved_loaded by done. eexists. split; [done|].
    apply Forall_take, others_none.
  - rewrite saved_items by done.
    rewrite filter_cons_True by done. simpl. f_equal.
    rewrite filter_has_path_none; [done|].
    apply Forall_take, others_none.
Qed.

Lemma objects_only_run_op o w : objects_only w -> objects_only (exec (run_op o) w).
Proof.
  unfold objects_only. rewrite run_op_stored. by apply step_items_Forall.
Qed.

Lemma objects_only_run_ops ops w : objects_only w -> objects_only (run_ops ops w).
Proof.
  revert w. induction ops as [|o ops IH]; intros w H; simpl; [done|].
  by apply IH, objects_only_run_op.
Qed.

Lemma latest_run_ops t ops w :
  latest t w -> Forall (op_by t) ops -> latest t (run_ops ops w).
Proof.
  revert w. induction ops as [|o ops IH]; intros w H Hops; simpl; [done|].
  apply Forall_cons in Hops as [Ho Hops]. apply IH; [|done].
  unfold latest. rewrite run_op_stored. apply step_items_Forall; [|done].
  by intros now p ->.
Qed.

Lemma latest_loaded t w : latest t w -> Forall (fun e => stamp e <= t) (loaded w).
Proof.
  unfold latest. rewrite loaded_eq. apply sorted_view_Forall.
Qed.

End Saving.

Section Eviction.

Implicit Types (w : World) (l : list element) (p q : jsstring).

Lemma paths_in_objects S l : paths_in S l -> Forall is_object l.
Proof.
  intros H. eapply Forall_impl; [exact H|].
  by intros [|o] (q & _ & Ho).
Qed.

Lemma paths_in_fresh S l p : paths_in S l -> p ∉ S -> Forall (fun e => ~ has_path p e) l.
Proof.
  intros H Hp. eapply Forall_impl; [exact H|].
  intros [|o] (q & Hq & Ho) Hpo; simpl in *; [done|]. congruence.
Qed.

(** Below the bound a save of a new path adds its entry in front of the
    sorted history and drops nothing. *)
Lemma save_items_fresh now p S l :
  paths_in S l -> p ∉ S -> (length l < MAX_HISTORY_ITEMS)%nat ->
  save_items now p l = entry now p :: sortDesc l.
Proof.
  intros Hl Hp Hlen. rewrite save_items_objects by by eapply paths_in_objects.
  rewrite others_id.
  - apply take_ge. simpl. rewrite sortDesc_perm. unfold MAX_HISTORY_ITEMS in *. lia.
  - rewrite sortDesc_perm. by eapply paths_in_fresh.
Qed.

Lemma saves_fill sv : forall S l,
  paths_in S l -> NoDup l ->
  NoDup (sv.*2) ->
  Forall (fun p => ~ blank p /\ p ∉ S) (sv.*2) ->
  (length l + length sv <= MAX_HISTORY_ITEMS)%nat ->
  let l' := foldl (fun l o => step_items o l) l (saves sv) in
  paths_in (sv.*2 ++ S) l' /\ NoDup l'
  /\ length l' = (length l + length sv)%nat.
Proof.
  induction sv as [|[t p] sv IH]; intros S l Hl Hnd Hsv Hok Hlen.
  { simpl. split; [done|]. split; [done|lia]. }
  rewrite fmap_cons in Hsv, Hok. cbn [snd] in Hsv, Hok.
  apply NoDup_cons in Hsv as [Hp Hsv].
  apply Forall_cons in Hok as [[Hb HpS] Hok].
  rewrite length_cons in Hlen.
  change (saves ((t, p) :: sv)) with (Save t p :: saves sv).
  cbn [foldl step_items]. rewrite decide_False by done.
  rewrite (save_items_fresh t p S l) by (done || lia).
  destruct (IH (p :: S) (entry t p :: sortDesc l)) as (H1 & H2 & H3).
  - constructor.
    + exists p. split; [left|done].
    + unfold paths_in. rewrite sortDesc_perm.
      eapply Forall_impl; [exact Hl|]. intros e (q & ? & ?). exists q.
      split; [by right|done].
  - apply NoDup_cons. split; [|by rewrite sortDesc_perm].
    rewrite sortDesc_perm. intros Hin.
    pose proof (paths_in_fresh S l p Hl HpS) as Hfresh.
    rewrite Forall_forall in Hfresh. by apply (Hfresh _ Hin).
  - done.
  - rewrite Forall_forall in *. intros q Hq. destruct (Hok q Hq) as [? ?].
    split; [done|]. apply not_elem_of_cons. split; [|done]. by intros ->.
  - rewrite length_cons, sortDesc_perm. lia.
  - cbv zeta. split; [|split; [done|]].
    + unfold paths_in in *. eapply Forall_impl; [exact H1|].
      intros e (q & Hq & He). exists q. split; [|done].
      rewrite fmap_cons. cbn [snd].
      apply elem_of_app in Hq as [Hq|Hq].
      * apply elem_of_app. left. by right.
      * apply elem_of_cons in Hq as [->|Hq].
        -- apply elem_of_app. left. by left.
        -- apply elem_of_app. by right.
    + rewrite H3, !length_cons, sortDesc_perm. lia.
Qed.

(** A save of a new path into a full history: the entry goes in front,
    the last of the sorted history goes out. *)
Lemma save_items_full now p l :
  Forall is_object l -> NoDup l ->
  length l = MAX_HISTORY_ITEMS ->
  Forall (fun e => ~ has_path p e) l ->
  exists kept victim,
    sortDesc l = kept ++ [victim]
    /\ Forall (fun x => stamp victim <= stamp x) kept
    /\ save_items now p l = entry now p :: kept
    /\ victim ∉ entry now p :: kept.
Proof.
  intros Ho Hnd Hlen Hfresh. rewrite save_items_objects by done.
  assert (Hf : Forall (fun e => ~ has_path p e) (sortDesc l))
    by by rewrite sortDesc_perm.
  rewrite others_id by done.
  pose proof (sortDesc_sorted l) as Hs.
  assert (Hnd' : NoDup (sortDesc l)) by by rewrite sortDesc_perm.
  assert (HL : length (sortDesc l) = 10%nat) by by rewrite sortDesc_perm.
  assert (exists victim, sortDesc l = take 9 (sortDesc l) ++ [victim])
    as [victim E].
  { destruct (drop 9 (sortDesc l)) as [|victim [|? ?]] eqn:E;
      pose proof (f_equal length E) as E'; rewrite length_drop, HL in E';
      try done.
    exists victim. by rewrite <- E, take_drop. }
  exists (take 9 (sortDesc l)), victim.
  rewrite E in Hs, Hnd', Hf.
  apply StronglySorted_app in Hs as (Hrel & _ & _).
  apply NoDup_app in Hnd' as (_ & Hdisj & _).
  apply Forall_app in Hf as [_ Hv]. apply Forall_inv in Hv.
  split; [done|]. split; [|split; [done|]].
  - apply Forall_forall. intros x Hx. apply (Hrel x victim Hx). by left.
  - apply not_elem_of_cons. split.
    + intros ->. by apply Hv.
    + intros Hin. apply (Hdisj _ Hin). by left.
Qed.

End Eviction.

Section Removing.

Implicit Types (w : World) (l : list element) (p q : jsstring).

(** [loadProjectHistory] hands back a [null] only when the stored array
    is [[null]]. *)
Lemma sorted_view_null l :
  ~ Forall is_object (sorted_view l) -> l = [Null] /\ sorted_view l = [Null].
Proof.
  intros H. destruct (decide (Forall is_object l)) as [Ho|Ho].
  { destruct H. by apply sorted_view_Forall. }
  unfold sorted_view in *. rewrite decide_False in * by done.
  destruct l as [|x [|y l]]; [by destruct H; constructor| |by destruct H; constructor].
  destruct x; [done|]. destruct Ho. by repeat constructor.
Qed.

Lemma loaded_after_remove p w :
  loaded (exec (removeProjectFromHistory p) w) = others p (loaded w).
Proof.
  rewrite !loaded_eq. destruct (removeProjectFromHistory_eq p w) as [_ ->].
  unfold remove_items. cbv zeta. destruct (decide _) as [H|H].
  - apply sorted_view_fix; [by apply others_Forall|].
    apply others_sorted, sorted_view_stampR.
  - apply sorted_view_null in H as [-> ->]. by vm_compute.
Qed.

Lemma others_cons_other p e l : ~ has_path p e -> others p (e :: l) = e :: others p l.
Proof. intros H. unfold others. by rewrite filter_cons_True. Qed.

Lemma others_cons_same p e l : has_path p e -> others p (e :: l) = others p l.
Proof. intros H. unfold others. rewrite filter_cons_False; [done|]. by intros []. Qed.

Lemma handleRemove_eq p w :
  eval (handleRemove p) w = Return (others p (loaded w)).
Proof.
  rewrite <- loaded_after_remove. unfold handleRemove.
  destruct (removeProjectFromHistory_eq p w) as [Hr _].
  destruct (loadProjectHistory_returns (exec (removeProjectFromHistory p) w))
    as (w' & Hload & _).
  rewrite loaded_eq. unfold_M.
  destruct (removeProjectFromHistory p w) as [[[]|e] w1]; [|done].
  simpl in *. by rewrite Hload.
Qed.

Lemma loaded_empty w : stored_items w = [] -> loaded w = [].
Proof. intros H. by rewrite loaded_eq, H. Qed.

End Removing.

(** ** The code on some inputs *)

Example getProjectName_nested :
  getProjectName (js "a//b//") = js "b".
Proof. reflexivity. Qed.

Example formatPath_lowercase_drive :
  formatPath (js "c:\Users\bob\src") = js "c:\Users\bob\src".
Proof. reflexivity. Qed.

Example formatPath_Windows_no_user :
  formatPath (js "C:\Users\") = js "~".
Proof. reflexivity. Qed.

Example load_unsorted_store :
  loaded (mkWorld {[ STORAGE_KEY := Parses (PArray
            [entry 3 (js "/x"); entry 8 (js "/y"); entry 5 (js "/z")]) ]} [])
  = [entry 8 (js "/y"); entry 5 (js "/z"); entry 3 (js "/x")].
Proof. by vm_compute. Qed.

Example load_same_time_keeps_order :
  loaded (mkWorld {[ STORAGE_KEY := Parses (PArray
            [entry 4 (js "/x"); entry 4 (js "/y")]) ]} [])
  = [entry 4 (js "/x"); entry 4 (js "/y")].
Proof. by vm_compute. Qed.

(** A stored [[null]] is handed back as it is; saving then fails in
    [filter], is logged, and writes nothing, and
    [getMostRecentProject], which has no [try], throws. *)
Example null_alone :
  let w := mkWorld {[ STORAGE_KEY := Parses (PArray [Null]) ]} [] in
  loaded w = [Null]
  /\ stored_items (exec (saveProjectToHistory 1 (js "/x")) w) = [Null]
  /\ console (exec (saveProjectToHistory 1 (js "/x")) w)
     = [(js "Failed to save project to history:", TypeError)]
  /\ eval getMostRecentProject w = Throw TypeError.
Proof. by vm_compute. Qed.

(** With a second element the comparator throws, the history counts as
    empty, and a save writes over it. *)
Example null_among_two :
  let w := mkWorld {[ STORAGE_KEY := Parses (PArray [Null; entry 2 (js "/y")]) ]} [] in
  loaded w = []
  /\ stored_items (exec (saveProjectToHistory 3 (js "/x")) w) = [entry 3 (js "/x")].
Proof. by vm_compute. Qed.

(** ** The claims of the specification *)

(** C1 (amended).  For a path [p] that [saveProjectToHistory] accepts
    (not empty, not white space only): after [save(p)], any sequence of
    operations, and [save(p)] again at a time no stored entry and no
    operation in between goes beyond, the store holds exactly one entry
    with path [p], its [lastUsed] is the time of the second save, and
    [loadProjectHistory] returns it first.  The store at the start is one
    from which [loadProjectHistory] returns objects. *)
Theorem save_twice_refreshes p w t1 ops t2 :
  ~ blank p ->
  loads_objects w ->
  latest t2 w -> t1 <= t2 -> Forall (op_by t2) ops ->
  refreshed t2 p
    (exec (saveProjectToHistory t2 p)
       (run_ops ops (exec (saveProjectToHistory t1 p) w))).
Proof.
  intros Hp Hw Hlate Ht Hops.
  set (w1 := exec (saveProjectToHistory t1 p) w).
  assert (H1 : objects_only w1) by by apply saved_objects_only.
  assert (L1 : latest t2 w1).
  { unfold latest, w1. rewrite saved_items by done. constructor; [done|].
    apply Forall_take, others_Forall. rewrite loaded_eq.
    by apply sorted_view_Forall. }
  apply saved_refreshed; [done| |].
  - by apply objects_only_loads, objects_only_run_ops.
  - by apply latest_loaded, latest_run_ops.
Qed.

Lemma save_twice_refreshes_witness :
  refreshed 3 (js "/srv/app")
    (exec (saveProjectToHistory 3 (js "/srv/app"))
       (run_ops [Save 2 (js "/srv/web"); Remove (js "/srv/old"); Load]
          (exec (saveProjectToHistory 1 (js "/srv/app")) fresh))).
Proof.
  apply save_twice_refreshes.
  - by_evaluation.
  - unfold loads_objects. vm_compute. constructor.
  - unfold latest. vm_compute. constructor.
  - lia.
  - repeat constructor; simpl; lia.
Defined.

(** C1 as stated fails for the empty path: both calls return at the
    guard, and the store holds no entry for it. *)
Lemma save_twice_empty_path_counterexample :
  loads_objects fresh /\ latest 2 fresh
  /\ ~ refreshed 2 (js "")
        (exec (saveProjectToHistory 2 (js ""))
           (run_ops [] (exec (saveProjectToHistory 1 (js "")) fresh))).
Proof.
  split; [unfold loads_objects; vm_compute; constructor|].
  split; [unfold latest; vm_compute; constructor|].
  intros [_ H]. vm_compute in H. discriminate.
Qed.

(** C2 (amended).  No operation lets the stored array grow beyond ten
    elements.  Eleven saves of distinct paths, none of them empty or
    white space only, into an empty history leave exactly ten entries,
    and the eleventh puts out the entry with the smallest [lastUsed]
    among the ten; so does a save of a new path into any history of ten
    distinct objects. *)
Theorem history_bounded_and_evicts_oldest :
  (forall o w,
     (length (stored_items w) <= MAX_HISTORY_ITEMS)%nat ->
     (length (stored_items (exec (run_op o) w)) <= MAX_HISTORY_ITEMS)%nat)
  /\ (forall w first now p,
        stored_items w = [] ->
        length first = 10%nat ->
        NoDup (p :: first.*2) ->
        Forall (fun q => ~ blank q) (p :: first.*2) ->
        let w10 := run_ops (saves first) w in
        let w11 := exec (saveProjectToHistory now p) w10 in
        length (stored_items w10) = 10%nat
        /\ length (stored_items w11) = 10%nat
        /\ evicts_oldest w10 w11 (entry now p))
  /\ (forall w now p,
        objects_only w -> NoDup (stored_items w) ->
        length (stored_items w) = MAX_HISTORY_ITEMS ->
        Forall (fun e => ~ has_path p e) (stored_items w) ->
        ~ blank p ->
        evicts_oldest w (exec (saveProjectToHistory now p) w) (entry now p)).
Proof.
  assert (Full : forall w now p,
            objects_only w -> NoDup (stored_items w) ->
            length (stored_items w) = MAX_HISTORY_ITEMS ->
            Forall (fun e => ~ has_path p e) (stored_items w) ->
            ~ blank p ->
            evicts_oldest w (exec (saveProjectToHistory now p) w) (entry now p)).
  { intros w now p Ho Hnd Hlen Hfresh Hp.
    destruct (save_items_full now p _ Ho Hnd Hlen Hfresh)
      as (kept & victim & E & Hmin & Hsave & Hout).
    exists kept, victim.
    destruct (saveProjectToHistory_accepted now p w Hp) as [_ ->].
    rewrite loaded_eq, sorted_view_objects by done. by rewrite Hsave. }
  split; [|split; [|exact Full]].
  - intros o w. rewrite run_op_stored. apply step_items_bound.
  - intros w first now p Hw Hlen Hnd Hb w10 w11.
    apply NoDup_cons in Hnd as [Hp Hnd]. apply Forall_cons in Hb as [Hbp Hb].
    destruct (saves_fill first [] []) as (Hpaths & Hnd10 & Hlen10);
      [by constructor|constructor|done| |simpl; unfold MAX_HISTORY_ITEMS; lia|].
    { eapply Forall_impl; [exact Hb|]. intros q ?. split; [done|]. apply not_elem_of_nil. }
    cbv zeta in *. rewrite app_nil_r in Hpaths. simpl in Hlen10.
    assert (E10 : stored_items w10
                  = foldl (fun l o => step_items o l) [] (saves first)).
    { unfold w10. by rewrite run_ops_stored, Hw. }
    rewrite <- E10 in *. rewrite Hlen in Hlen10.
    assert (Hev : evicts_oldest w10 w11 (entry now p)).
    { apply Full; [by eapply paths_in_objects|done|done| |done].
      by eapply paths_in_fresh. }
    split; [done|]. split; [|done].
    destruct Hev as (kept & victim & E & _ & -> & _).
    apply (f_equal length) in E.
    rewrite loaded_eq, length_app in E; simpl in E.
    rewrite sorted_view_perm in E by by eapply paths_in_objects.
    rewrite length_cons. lia.
Qed.

Lemma history_bounded_and_evicts_oldest_witness :
  let first := [(1, js "/p/a"); (2, js "/p/b"); (3, js "/p/c"); (4, js "/p/d");
                (5, js "/p/e"); (6, js "/p/f"); (7, js "/p/g"); (8, js "/p/h");
                (9, js "/p/i"); (10, js "/p/j")] in
  let w10 := run_ops (saves first) fresh in
  let w11 := exec (saveProjectToHistory 11 (js "/p/k")) w10 in
  length (stored_items w10) = 10%nat
  /\ length (stored_items w11) = 10%nat
  /\ evicts_oldest w10 w11 (entry 11 (js "/p/k")).
Proof.
  intros first.
  apply (proj1 (proj2 history_bounded_and_evicts_oldest) fresh first 11 (js "/p/k")).
  - reflexivity.
  - reflexivity.
  - by_evaluation.
  - by_evaluation.
Defined.

(** C2 as stated asks only for non-empty paths.  Two of these eleven are
    white space; their saves return at the guard, and nine entries are
    left. *)
Lemma eleven_nonempty_paths_counterexample :
  let sv := [(1, js "/p/a"); (2, js "/p/b"); (3, js "/p/c"); (4, js "/p/d");
             (5, js "/p/e"); (6, js "/p/f"); (7, js "/p/g"); (8, js "/p/h");
             (9, js "/p/i"); (10, js " "); (11, js "  ")] in
  length sv = 11%nat
  /\ NoDup (sv.*2)
  /\ Forall (fun q => q <> []) (sv.*2)
  /\ length (stored_items (run_ops (saves sv) fresh)) = 9%nat.
Proof.
  intros sv. split; [reflexivity|]. split; [by_evaluation|].
  split; [by_evaluation|]. by vm_compute.
Qed.

(** C3.  In every state of the storage [loadProjectHistory] returns, and
    what it returns is ordered by [lastUsed], most recent first; when the
    stored array holds objects, it is that array rearranged. *)
Theorem load_sorted_most_recent_first w :
  (exists w', loadProjectHistory w = (Return (loaded w), w'))
  /\ StronglySorted not_newer (loaded w)
  /\ (objects_only w -> loaded w ≡ₚ stored_items w).
Proof.
  split; [|split].
  - rewrite loaded_eq. destruct (loadProjectHistory_returns w) as (w' & ? & _). eauto.
  - apply stampR_not_newer, loaded_sorted.
  - intros H. rewrite loaded_eq. by apply sorted_view_perm.
Qed.

Lemma load_sorted_most_recent_first_witness :
  let w := mkWorld {[ STORAGE_KEY := Parses (PArray
             [Object (mkItem (Some (js "/a")) 5 (Some (js "a")));
              Object (mkItem (Some (js "/b")) 9 (Some (js "b")));
              Object (mkItem (Some (js "/c")) 7 (Some (js "c")))]) ]} [] in
  StronglySorted not_newer (loaded w) /\ loaded w ≡ₚ stored_items w.
Proof.
  intros w. destruct (load_sorted_most_recent_first w) as (_ & Hs & Hp).
  split; [exact Hs|]. apply Hp.
  unfold objects_only. vm_compute. repeat constructor; discriminate.
Defined.

(** C4 (amended).  [loadProjectHistory] never throws and leaves the
    storage as it is.  It returns the empty array when the key is absent
    or holds a string that does not parse or that parses to something
    other than an array, and when the comparator throws on a [null] among
    two elements or more.  A parsed array is not checked against the
    shape of an entry: an array of objects that each carry an integer
    [lastUsed] (every [Object] here does) is returned whole, most recent
    first, also when its objects lack [path] or [name]. *)
Theorem load_never_throws w :
  (exists w', loadProjectHistory w = (Return (loaded w), w')
              /\ localStorage w' = localStorage w)
  /\ (~ holds_array w -> loaded w = [])
  /\ (forall l, localStorage w !! STORAGE_KEY = Some (Parses (PArray l)) ->
        (Forall is_object l ->
         loaded w ≡ₚ l /\ StronglySorted not_newer (loaded w))
        /\ (Null ∈ l -> (2 <= length l)%nat -> loaded w = [])).
Proof.
  split; [|split].
  - rewrite loaded_eq. apply loadProjectHistory_returns.
  - intros H. rewrite loaded_eq. unfold stored_items, holds_array in *.
    destruct (localStorage w !! STORAGE_KEY) as [[s|[]]|]; try done.
    destruct H. eauto.
  - intros l Hl. split.
    + intros H. split; [|apply stampR_not_newer, loaded_sorted].
      rewrite loaded_eq. unfold stored_items. rewrite Hl.
      by apply sorted_view_perm.
    + intros Hnull Hlen. rewrite loaded_eq. unfold stored_items. rewrite Hl.
      unfold sorted_view. rewrite decide_False.
      * by destruct l as [|x [|y l]]; simpl in *; try lia.
      * rewrite Forall_forall. intros H. by apply (H Null).
Qed.

Lemma load_never_throws_witness :
  loaded (mkWorld {[ STORAGE_KEY := Unparseable (js "{oops") ]} []) = [].
Proof.
  apply load_never_throws. intros [l H]. vm_compute in H. discriminate.
Defined.

(** C4 as stated fails for content that parses to an array of something
    else than valid entries: an object with a [lastUsed] alone is handed
    back. *)
Lemma load_returns_invalid_entry_counterexample :
  let w := mkWorld {[ STORAGE_KEY := Parses (PArray [Object (mkItem None 5 None)]) ]} [] in
  malformed w
  /\ eval loadProjectHistory w = Return [Object (mkItem None 5 None)]
  /\ loaded w <> [].
Proof.
  intros w. split; [|split].
  - unfold malformed, w. simpl. rewrite lookup_singleton_eq.
    intros H. apply Forall_inv in H as (p & t & n & H). discriminate.
  - by vm_compute.
  - by vm_compute.
Qed.

(** C5.  In every state of the storage and for every path [p]:
    [removeProjectFromHistory p] returns without throwing; afterwards
    [loadProjectHistory] returns no entry with path [p]; and when there
    was no such entry, it returns what it returned before. *)
Theorem remove_then_load p w :
  eval (removeProjectFromHistory p) w = Return tt
  /\ Forall (fun e => ~ has_path p e) (loaded (exec (removeProjectFromHistory p) w))
  /\ (Forall (fun e => ~ has_path p e) (loaded w) ->
      loaded (exec (removeProjectFromHistory p) w) = loaded w)
  /\ (Forall (fun e => ~ has_path p e) (stored_items w) ->
      loaded (exec (removeProjectFromHistory p) w) = loaded w).
Proof.
  split; [apply removeProjectFromHistory_eq|].
  rewrite loaded_after_remove. split; [apply others_none|].
  split; [apply others_id|].
  intros H. apply others_id. rewrite loaded_eq. by apply sorted_view_Forall.
Qed.

Lemma remove_then_load_witness :
  let w := exec (saveProjectToHistory 2 (js "/opt/b"))
             (exec (saveProjectToHistory 1 (js "/opt/a")) fresh) in
  loaded (exec (removeProjectFromHistory (js "/opt/c")) w) = loaded w.
Proof.
  intros w. apply remove_then_load.
  unfold w. vm_compute. repeat constructor; intros [=].
Defined.

(** C6.  [getMostRecentProject] returns the [path] of the first entry
    [loadProjectHistory] returns, and [null] when it returns none.  After
    saves of two different accepted paths [A] and [B], [A] first (at
    times 1 and 2, or any two times in that order), into a history that
    is empty or holds nothing used after the first save, it returns [B];
    after [B] is removed, it returns [A]. *)
Theorem most_recent_is_first_loaded :
  (forall w,
     eval getMostRecentProject w
     = match loaded w with
       | [] => Return VNull
       | item :: _ => get_path item
       end)
  /\ (forall w A B t1 t2,
        loads_objects w -> latest t1 w ->
        ~ blank A -> ~ blank B -> A <> B -> t1 <= t2 ->
        let w2 := exec (saveProjectToHistory t2 B)
                    (exec (saveProjectToHistory t1 A) w) in
        eval getMostRecentProject w2 = Return (VString B)
        /\ eval getMostRecentProject (exec (removeProjectFromHistory B) w2)
           = Return (VString A)).
Proof.
  split; [intros w; apply getMostRecentProject_eq|].
  intros w A B t1 t2 Hlo Hlate HA HB HAB Ht. cbv zeta.
  set (w1 := exec (saveProjectToHistory t1 A) w).
  set (w2 := exec (saveProjectToHistory t2 B) w1).
  pose proof (latest_loaded _ _ Hlate) as Hl.
  assert (L1 : loaded w1 = entry t1 A :: take 9 (others A (loaded w)))
    by by apply saved_loaded.
  assert (O1 : loads_objects w1) by by apply objects_only_loads, saved_objects_only.
  assert (HBA : ~ has_path B (entry t1 A)) by (simpl; congruence).
  assert (L2 : exists rest, loaded w2 = entry t2 B :: entry t1 A :: rest).
  { unfold w2. rewrite saved_loaded; [|done|done|].
    - rewrite L1, others_cons_other by done. simpl. eauto.
    - rewrite L1. constructor; [done|].
      apply Forall_take, others_Forall.
      eapply Forall_impl; [exact Hl|]. intros e ?. simpl in *. lia. }
  destruct L2 as [rest L2].
  rewrite !(proj1 (getMostRecentProject_eq _)), loaded_after_remove, L2.
  split; [done|].
  by rewrite others_cons_same, others_cons_other.
Qed.

Lemma most_recent_is_first_loaded_witness :
  let w2 := exec (saveProjectToHistory 2 (js "/home/eve/B"))
              (exec (saveProjectToHistory 1 (js "/home/eve/A")) fresh) in
  eval getMostRecentProject w2 = Return (VString (js "/home/eve/B"))
  /\ eval getMostRecentProject (exec (removeProjectFromHistory (js "/home/eve/B")) w2)
     = Return (VString (js "/home/eve/A")).
Proof.
  apply (proj2 most_recent_is_first_loaded fresh).
  - unfold loads_objects. vm_compute. constructor.
  - unfold latest. vm_compute. constructor.
  - by_evaluation.
  - by_evaluation.
  - by_evaluation.
  - lia.
Defined.

(** C7.  For a path that is empty or holds white space only,
    [saveProjectToHistory] returns at once in every world: nothing is
    read, written or logged. *)
Theorem save_blank_is_noop now p w :
  blank p -> saveProjectToHistory now p w = (Return tt, w).
Proof. apply saveProjectToHistory_blank. Qed.

Lemma save_blank_is_noop_witness :
  let w := exec (saveProjectToHistory 1 (js "/opt/a")) fresh in
  saveProjectToHistory 2 [32; 9; 160; 8232]%N w = (Return tt, w).
Proof. intros w. apply save_blank_is_noop. by_evaluation. Defined.

(** C8.  The name of a path is the last of its non-empty pieces between
    slashes, and ["Unknown Project"] when it has none: so
    ["/Users/alice/projects/demo"] gives ["demo"], and ["/"] and the
    empty string give ["Unknown Project"]. *)
Theorem project_name_is_last_piece :
  (forall path, getProjectName path = deriveName path)
  /\ (forall pre seg k,
        seg <> [] -> slash ∉ seg ->
        getProjectName (pre ++ slash :: seg ++ replicate k slash) = seg
        /\ getProjectName (seg ++ replicate k slash) = seg)
  /\ (forall k, getProjectName (replicate k slash) = Unknown_Project)
  /\ getProjectName (js "/Users/alice/projects/demo") = js "demo"
  /\ getProjectName (js "/") = js "Unknown Project"
  /\ getProjectName (js "") = js "Unknown Project".
Proof.
  split; [apply getProjectName_deriveName|].
  split; [|split; [|by vm_compute]].
  - intros pre seg k Hne Hs. rewrite !getProjectName_deriveName.
    by apply deriveName_last_piece.
  - intros k. rewrite getProjectName_deriveName. apply deriveName_separators.
Qed.

Lemma project_name_is_last_piece_witness :
  getProjectName (js "C:\work/" ++ slash :: js "my app" ++ replicate 2 slash)
  = js "my app".
Proof.
  apply (proj1 (proj2 project_name_is_last_piece)).
  - discriminate.
  - by_evaluation.
Defined.

(** C9.  [formatPath] puts ["~"] in the place of a home prefix at the
    start of the path: ["/Users/<user>"] and ["/home/<user>"] for a user
    name that is not empty, and ["<Drive>:\Users\<user>"] for a drive
    letter from A to Z; it hands back unchanged a path that starts with
    none of the three (or with no user name after ["/Users/"] or
    ["/home/"]).  It is applied to what a row shows only: the row's
    handlers receive [item.path] itself, and that is what a click
    stores. *)
Theorem formatPath_abbreviates_home :
  (forall user rest,
     user <> [] -> slash ∉ user -> ends_piece slash rest ->
     formatPath (js "/Users/" ++ user ++ rest) = js "~" ++ rest
     /\ formatPath (js "/home/" ++ user ++ rest) = js "~" ++ rest)
  /\ (forall d user rest,
        isUpper d = true -> backslash ∉ user -> ends_piece backslash rest ->
        formatPath (d :: js ":\Users\" ++ user ++ rest) = js "~" ++ rest)
  /\ (forall path,
        startsWith (js "/Users/") path = false ->
        startsWith (js "/home/") path = false ->
        matchesWindowsUsers path = false ->
        formatPath path = path)
  /\ (forall rest,
        ends_piece slash rest ->
        formatPath (js "/Users/" ++ rest) = js "/Users/" ++ rest
        /\ formatPath (js "/home/" ++ rest) = js "/home/" ++ rest)
  /\ formatPath (js "/Users/alice/projects/demo") = js "~/projects/demo"
  /\ (forall item p,
        path item = Some p ->
        render_item item = Return (mkRow p (name item) (formatPath p) p p))
  /\ (forall w now item p row,
        path item = Some p -> render_item item = Return row ->
        ~ blank p -> loads_objects w ->
        row_path row = formatPath p
        /\ stored_items (exec (handleSelect now (row_onClick row)) w)
           = Object (mkItem (Some p) now (Some (getProjectName p)))
             :: take 9 (others p (loaded w))
        /\ eval (handleRemove (row_onRemove row)) w = Return (others p (loaded w))).
Proof.
  split; [|split; [|split; [|split; [|split; [|split]]]]].
  - intros user rest ? ? ?.
    split; [by apply formatPath_Users|by apply formatPath_home].
  - apply formatPath_Windows.
  - apply formatPath_other.
  - apply formatPath_no_user.
  - by vm_compute.
  - intros item p H. unfold render_item. by rewrite H.
  - intros w now item p row H Hrow Hp Hw. unfold render_item in Hrow.
    rewrite H in Hrow. injection Hrow as <-. simpl.
    split; [done|]. unfold handleSelect. rewrite saved_items by done.
    split; [done|]. apply handleRemove_eq.
Qed.

Lemma formatPath_abbreviates_home_witness :
  formatPath (js "/home/" ++ js "bob" ++ js "/src/claudia") = js "~" ++ js "/src/claudia"
  /\ formatPath (68%N :: js ":\Users\" ++ js "bob" ++ js "\src") = js "~" ++ js "\src"
  /\ formatPath (js "/var/www/site") = js "/var/www/site"
  /\ (let item := mkItem (Some (js "/Users/alice/projects/demo")) 7 (Some (js "demo")) in
      let row := mkRow (js "/Users/alice/projects/demo") (Some (js "demo"))
                   (js "~/projects/demo")
                   (js "/Users/alice/projects/demo")
                   (js "/Users/alice/projects/demo") in
      row_path row = formatPath (js "/Users/alice/projects/demo")
      /\ stored_items (exec (handleSelect 9 (row_onClick row)) fresh)
         = Object (mkItem (Some (js "/Users/alice/projects/demo")) 9
                     (Some (getProjectName (js "/Users/alice/projects/demo"))))
           :: take 9 (others (js "/Users/alice/projects/demo") (loaded fresh))
      /\ eval (handleRemove (row_onRemove row)) fresh
         = Return (others (js "/Users/alice/projects/demo") (loaded fresh))).
Proof.
  destruct formatPath_abbreviates_home as (H1 & H2 & H3 & _ & _ & _ & H7).
  split; [|split; [|split]].
  - apply H1; [discriminate|by_evaluation|right; by eexists].
  - apply H2; [reflexivity|by_evaluation|right; by eexists].
  - apply H3; reflexivity.
  - intros item row. apply (H7 fresh 9 item).
    + reflexivity.
    + reflexivity.
    + by_evaluation.
    + unfold loads_objects. vm_compute. constructor.
Defined.

(** C10.  A path with a code unit that is not white space is stored as it
    is given: the new entry carries [path] itself, untrimmed, and only
    entries whose [path] is that very string are dropped for it.  An
    entry under the trimmed form of a path with white space around it
    stays, and the two are two entries. *)
Theorem save_stores_path_verbatim :
  (forall w now p,
     ~ blank p -> loads_objects w ->
     stored_items (exec (saveProjectToHistory now p) w)
     = Object (mkItem (Some p) now (Some (getProjectName p)))
       :: take 9 (others p (loaded w)))
  /\ (forall w p e,
        trim p <> p -> e ∈ loaded w -> has_path (trim p) e ->
        e ∈ others p (loaded w))
  /\ (forall w t0 now p,
        ~ blank p -> trim p <> p -> stored_items w = [] ->
        stored_items (exec (saveProjectToHistory now p)
                        (exec (saveProjectToHistory t0 (trim p)) w))
        = [Object (mkItem (Some p) now (Some (getProjectName p)));
           Object (mkItem (Some (trim p)) t0 (Some (getProjectName (trim p))))]).
Proof.
  split; [|split].
  - intros w now p Hp Hw. by rewrite saved_items.
  - intros w p e Hne He Hpath. apply list_elem_of_filter. split; [|done].
    destruct e as [|o]; simpl in *; [done|]. congruence.
  - intros w t0 now p Hp Hne Hw.
    assert (Hl : loaded w = []) by by apply loaded_empty.
    assert (Hlo : loads_objects w) by (unfold loads_objects; by rewrite Hl).
    pose proof (trim_not_blank p Hp) as Ht.
    set (w1 := exec (saveProjectToHistory t0 (trim p)) w).
    assert (S1 : stored_items w1 = [entry t0 (trim p)]).
    { unfold w1. rewrite saved_items by done. by rewrite Hl. }
    assert (L1 : loaded w1 = [entry t0 (trim p)]) by by rewrite loaded_eq, S1.
    rewrite saved_items; [|done|by apply objects_only_loads, saved_objects_only].
    rewrite L1, others_cons_other; [done|]. simpl. congruence.
Qed.

Lemma save_stores_path_verbatim_witness :
  stored_items (exec (saveProjectToHistory 2 (js " /opt/app "))
                  (exec (saveProjectToHistory 1 (trim (js " /opt/app "))) fresh))
  = [Object (mkItem (Some (js " /opt/app ")) 2
               (Some (getProjectName (js " /opt/app "))));
     Object (mkItem (Some (trim (js " /opt/app "))) 1
               (Some (getProjectName (trim (js " /opt/app ")))))].
Proof.
  apply (proj2 (proj2 save_stores_path_verbatim) fresh 1 2 (js " /opt/app ")).
  - by_evaluation.
  - by_evaluation.
  - reflexivity.
Defined.

(** * Further properties of the code *)

(** ** getProjectName *)

Section Names.

Implicit Types (s t p : jsstring) (sep : char16).

Lemma split_pieces_no_sep sep s seg : seg ∈ split sep s -> sep ∉ seg.
Proof.
  revert seg. induction s as [|c s IH]; intros seg H; simpl in H.
  - apply list_elem_of_singleton in H as ->. apply not_elem_of_nil.
  - destruct (N.eqb_spec c sep) as [->|Hc].
    + apply elem_of_cons in H as [->|H]; [apply not_elem_of_nil|auto].
    + pose proof (split_nonempty sep s).
      destruct (split sep s) as [|hd tl]; [done|].
      apply elem_of_cons in H as [->|H].
      * apply not_elem_of_cons. split; [done|]. apply IH. by left.
      * apply IH. by right.
Qed.

Lemma deriveName_trailing_slash p : deriveName (p ++ [slash]) = deriveName p.
Proof.
  unfold deriveName. rewrite split_app, filter_app. simpl.
  by rewrite filter_cons_False, app_nil_r by auto.
Qed.

Lemma deriveName_piece p :
  deriveName p <> [] /\ (slash ∉ deriveName p).
Proof.
  unfold deriveName.
  destruct (last _) as [s|] eqn:L; simpl.
  - apply last_Some_elem_of, list_elem_of_filter in L as [Hne Hin].
    split; [done|]. by eapply split_pieces_no_sep.
  - split; [done|]. by_evaluation.
Qed.

End Names.

(** X1.  The name [getProjectName] gives is never empty and holds no
    slash; slashes at the end of the path do not change it; and the name
    of a name is the name itself. *)
Theorem project_name_shape path :
  getProjectName path <> []
  /\ (slash ∉ getProjectName path)
  /\ (forall k, getProjectName (path ++ replicate k slash) = getProjectName path)
  /\ getProjectName (getProjectName path) = getProjectName path.
Proof.
  destruct (deriveName_piece path) as [Hne Hs].
  split; [by rewrite getProjectName_deriveName|].
  split; [by rewrite getProjectName_deriveName|]. split.
  - intros k. rewrite !getProjectName_deriveName.
    induction k as [|k IH]; [simpl; by rewrite app_nil_r|].
    replace (S k) with (k + 1)%nat by lia.
    rewrite replicate_add, app_assoc. simpl.
    by rewrite deriveName_trailing_slash.
  - rewrite !getProjectName_deriveName.
    destruct (deriveName_last_piece [] (deriveName path) 0 Hne Hs) as [_ H].
    simpl in H. by rewrite app_nil_r in H.
Qed.

(** ** formatPath on every path *)

Section Homes.

Implicit Types (s t p : jsstring) (sep : char16).

Lemma startsWith_prefix p s : startsWith p s = true -> exists t, s = p ++ t.
Proof.
  revert s; induction p as [|a p IH]; intros [|b s] H; simpl in *; eauto; try done.
  apply andb_true_iff in H as [Hab H]. apply N.eqb_eq in Hab as ->.
  destruct (IH _ H) as [t ->]. by exists t.
Qed.

(** The first piece of a split is the string up to its first separator. *)
Lemma split_head sep t :
  exists hd tl rest,
    split sep t = hd :: tl /\ t = hd ++ rest /\ (sep ∉ hd) /\ ends_piece sep rest.
Proof.
  induction t as [|c t (hd & tl & rest & E & Ht & Hhd & Hr)]; simpl.
  - exists [], [], []. repeat split; [apply not_elem_of_nil|by left].
  - destruct (N.eqb_spec c sep) as [->|Hc].
    + exists [], (split sep t), (sep :: t).
      repeat split; [apply not_elem_of_nil|right; eauto].
    + rewrite E. exists (c :: hd), tl, rest.
      repeat split; [by rewrite Ht|by apply not_elem_of_cons|done].
Qed.

Lemma formatHome_inv home X path r :
  home = slash :: X ++ [slash] -> slash ∉ X ->
  formatHome home path = Some r ->
  exists user rest,
    user <> [] /\ (slash ∉ user) /\ ends_piece slash rest
    /\ path = home ++ user ++ rest /\ r = js "~" ++ rest.
Proof.
  intros Hhome HX. unfold formatHome.
  destruct (startsWith home path) eqn:Hs; [|done].
  apply startsWith_prefix in Hs as [t ->].
  destruct (split_head slash t) as (user & tl & rest & E & -> & Hu & Hr).
  assert (Esplit : split slash (home ++ user ++ rest) = [] :: X :: user :: tl).
  { rewrite Hhome.
    replace ((slash :: X ++ [slash]) ++ user ++ rest)
      with ([] ++ slash :: (X ++ slash :: (user ++ rest)))
      by (simpl; by rewrite <- app_assoc).
    rewrite split_app_sep by apply not_elem_of_nil.
    by rewrite split_app_sep, E. }
  rewrite Esplit, array_get_2.
  destruct user as [|c user]; [done|]. cbn [truthy].
  rewrite (app_assoc home), replace_prefix. intros [= <-].
  exists (c :: user), rest. by rewrite <- app_assoc.
Qed.

Lemma formatWindows_inv path r :
  formatWindows path = Some r ->
  exists d user rest,
    isUpper d = true /\ (backslash ∉ user) /\ ends_piece backslash rest
    /\ path = d :: js ":\Users\" ++ user ++ rest /\ r = js "~" ++ rest.
Proof.
  unfold formatWindows, matchesWindowsUsers.
  destruct path as [|d path]; [done|].
  destruct (isUpper d) eqn:Hd; [|done].
  destruct (startsWith (js ":\Users\") path) eqn:Hs; [|done].
  apply startsWith_prefix in Hs as [t ->]. simpl andb. cbv iota.
  pose proof (isUpper_range d Hd) as Hrange.
  assert (Hd92 : N.eqb d 92 = false) by (apply N.eqb_neq; lia).
  destruct (split_head backslash t) as (user & tl & rest & E & -> & Hu & Hr).
  assert (Esplit : split backslash (d :: js ":\Users\" ++ user ++ rest)
                   = [d; 58%N] :: js "Users" :: user :: tl).
  { simpl. unfold backslash in *. by rewrite Hd92, E. }
  rewrite Esplit. cbv zeta. rewrite array_get_0, array_get_2.
  match goal with
  | |- context [2 <? ?n] => destruct (Z.ltb_spec 2 n) as [_|Hlen]
  end; [|rewrite !length_cons in Hlen; lia].
  assert (P : d :: js ":\Users\" ++ user ++ rest
              = ([d; 58%N] ++ js "\Users\" ++ user) ++ rest).
  { by rewrite <- !app_assoc. }
  rewrite P, replace_prefix. intros [= <-].
  exists d, user, rest. by rewrite <- P.
Qed.

Lemma formatPath_tilde rest : formatPath (js "~" ++ rest) = js "~" ++ rest.
Proof. by apply formatPath_other. Qed.

End Homes.

(** X2.  On every path [formatPath] either hands the path back or, when
    the path starts with one of the three home prefixes followed by a
    user name, puts ["~"] in the place of prefix and name and keeps what
    follows.  So applying it twice is applying it once, and the result is
    never longer than the path. *)
Theorem formatPath_on_every_path path :
  (formatPath path = path
   \/ exists rest, home_shape path rest /\ formatPath path = js "~" ++ rest)
  /\ formatPath (formatPath path) = formatPath path
  /\ (length (formatPath path) <= length path)%nat.
Proof.
  assert (H : formatPath path = path
              \/ exists rest, home_shape path rest
                              /\ formatPath path = js "~" ++ rest).
  { unfold formatPath.
    destruct (formatHome (js "/Users/") path) as [r|] eqn:E1.
    { right. apply (formatHome_inv _ (js "Users")) in E1
        as (user & rest & ? & ? & ? & -> & ->); [|done|by_evaluation].
      exists rest. split; [|done]. left. exists user. eauto 10. }
    destruct (formatHome (js "/home/") path) as [r|] eqn:E2.
    { right. apply (formatHome_inv _ (js "home")) in E2
        as (user & rest & ? & ? & ? & -> & ->); [|done|by_evaluation].
      exists rest. split; [|done]. left. exists user. eauto 10. }
    destruct (formatWindows path) as [r|] eqn:E3; [|by left].
    right. apply formatWindows_inv in E3
      as (d & user & rest & ? & ? & ? & -> & ->).
    exists rest. split; [|done]. right. exists d, user. eauto. }
  split; [done|]. destruct H as [E|(rest & Hshape & ->)].
  { rewrite !E. split; [done|lia]. }
  split; [apply formatPath_tilde|].
  destruct Hshape as [(user & _ & _ & _ & [->| ->])|(d & user & _ & _ & _ & ->)];
    rewrite ?length_cons, !length_app; simpl; lia.
Qed.

(** ** formatDate *)

Lemma floor_quotient diff k lo hi :
  0 < k -> lo * k <= diff < hi * k ->
  lo <= diff / k < hi /\ (diff / k) * k <= diff < (diff / k + 1) * k.
Proof.
  intros Hk Hd.
  pose proof (Z.div_mod diff k ltac:(lia)).
  pose proof (Z.mod_pos_bound diff k Hk).
  split; nia.
Qed.

(** X3.  What [formatDate] shows for a timestamp, by its age
    [now - timestamp] in milliseconds: ["just now"] below one minute,
    also for a timestamp that lies ahead of [now]; whole minutes from 1
    to 59 below one hour; whole hours from 1 to 23 below one day; whole
    days from 1 to 6 below seven days; the locale's date from seven days
    on.  The number shown is the age rounded down to the unit. *)
Theorem formatDate_by_age toLocaleDateString now timestamp :
  let diff := now - timestamp in
  let shows unit suffix lo hi :=
    exists q, lo <= q <= hi /\ q * unit <= diff < (q + 1) * unit
              /\ formatDate toLocaleDateString now timestamp
                 = Number_toString q ++ js suffix in
  (diff < 60000 -> formatDate toLocaleDateString now timestamp = js "just now")
  /\ (60000 <= diff < 3600000 -> shows 60000 "m ago"%string 1 59)
  /\ (3600000 <= diff < 86400000 -> shows 3600000 "h ago"%string 1 23)
  /\ (86400000 <= diff < 604800000 -> shows 86400000 "d ago"%string 1 6)
  /\ (604800000 <= diff ->
      formatDate toLocaleDateString now timestamp = toLocaleDateString timestamp).
Proof.
  intros diff shows. unfold shows, formatDate. fold diff.
  repeat split; intros H.
  - by destruct (Z.ltb_spec diff 60000); [|lia].
  - destruct (Z.ltb_spec diff 60000); [lia|].
    destruct (Z.ltb_spec diff 3600000); [|lia].
    exists (diff / 60000).
    destruct (floor_quotient diff 60000 1 60) as [? ?]; [lia..|].
    split; [lia|]. split; [lia|done].
  - destruct (Z.ltb_spec diff 60000); [lia|].
    destruct (Z.ltb_spec diff 3600000); [lia|].
    destruct (Z.ltb_spec diff 86400000); [|lia].
    exists (diff / 3600000).
    destruct (floor_quotient diff 3600000 1 24) as [? ?]; [lia..|].
    split; [lia|]. split; [lia|done].
  - destruct (Z.ltb_spec diff 60000); [lia|].
    destruct (Z.ltb_spec diff 3600000); [lia|].
    destruct (Z.ltb_spec diff 86400000); [lia|].
    destruct (Z.ltb_spec diff 604800000); [|lia].
    exists (diff / 86400000).
    destruct (floor_quotient diff 86400000 1 7) as [? ?]; [lia..|].
    split; [lia|]. split; [lia|done].
  - destruct (Z.ltb_spec diff 60000); [lia|].
    destruct (Z.ltb_spec diff 3600000); [lia|].
    destruct (Z.ltb_spec diff 86400000); [lia|].
    by destruct (Z.ltb_spec diff 604800000); [lia|].
Qed.

Lemma formatDate_by_age_witness :
  exists q, 1 <= q <= 59
            /\ q * 60000 <= 1700000330000 - 1700000000000 < (q + 1) * 60000
            /\ formatDate (fun _ => js "11/14/2023") 1700000330000 1700000000000
               = Number_toString q ++ js "m ago".
Proof.
  apply (formatDate_by_age (fun _ => js "11/14/2023") 1700000330000 1700000000000).
  lia.
Defined.

Example formatDate_five_minutes :
  formatDate (fun _ => js "11/14/2023") 1700000330000 1700000000000 = js "5m ago".
Proof. by vm_compute. Qed.

(** ** filteredHistory and the opening of the dropdown *)

Section Filtering.

Implicit Types (l history : list element) (filter : jsstring).

Lemma includes_nil s : includes [] s = true.
Proof. by destruct s. Qed.

Lemma includes_refl s : includes s s = true.
Proof.
  destruct s as [|c s]; [done|]. cbn [includes].
  pose proof (startsWith_app (c :: s) []) as H. rewrite app_nil_r in H.
  by rewrite H.
Qed.

(** A callback that never throws on the elements of [l] makes
    [Array_filter] the plain filter. *)
Lemma Array_filter_returns {A} (f : A -> outcome bool) (l : list A) :
  Forall (fun x => exists b, f x = Return b) l ->
  Array_filter f l = Return (filter (fun x => f x = Return true) l).
Proof.
  induction 1 as [|x l [b Hb] Hl IH]; simpl; [done|].
  rewrite Hb, IH. simpl. f_equal.
  destruct b.
  - by rewrite filter_cons_True.
  - rewrite filter_cons_False; [done|]. by rewrite Hb.
Qed.

(** One element on which the callback throws makes [Array_filter]
    throw. *)
Lemma Array_filter_throws {A} (f : A -> outcome bool) (l : list A) e :
  (forall x e', f x = Throw e' -> e' = e) ->
  Exists (fun x => f x = Throw e) l ->
  Array_filter f l = Throw e.
Proof.
  intros Hf. induction 1 as [x l Hx|x l Hl IH]; simpl.
  - by rewrite Hx.
  - destruct (f x) as [b|e'] eqn:E; simpl.
    + by rewrite IH.
    + by rewrite (Hf _ _ E).
Qed.

Lemma matches_filter_valid lower filter e :
  valid_entry e -> exists b, matches_filter lower filter e = Return b.
Proof.
  intros (p & t & n & ->). simpl.
  destruct (includes (lower filter) (lower p)); eauto.
Qed.

Lemma matches_filter_TypeError lower filter x e :
  matches_filter lower filter x = Throw e -> e = TypeError.
Proof.
  destruct x as [|[[p|] t [n|]]]; simpl;
    try destruct (includes _ _); congruence.
Qed.

Lemma loaded_valid w :
  Forall valid_entry (stored_items w) -> Forall valid_entry (loaded w).
Proof. rewrite loaded_eq. apply sorted_view_Forall. Qed.

Lemma onOpen_eq w : eval onOpen w = Return (loaded w, js "").
Proof.
  unfold onOpen. rewrite loaded_eq.
  destruct (loadProjectHistory_returns w) as (w' & Hload & _).
  unfold_M. by rewrite Hload.
Qed.

End Filtering.

(** X4.  On a history of valid entries [filteredHistory] does not throw
    and keeps a part of the history, in its order.  With the empty filter
    it keeps all of it, and with an entry's own path as the filter it
    keeps that entry: whatever [toLowerCase] does, provided it lowers the
    empty string to itself.  So when the dropdown opens on a store of
    valid entries, which resets the filter, every loaded entry is
    listed. *)
Theorem filteredHistory_on_valid_entries (toLowerCase : jsstring -> jsstring) :
  (forall history filter,
     Forall valid_entry history ->
     exists shown, filteredHistory toLowerCase history filter = Return shown
                   /\ shown `sublist_of` history)
  /\ (forall history,
        Forall valid_entry history -> toLowerCase [] = [] ->
        filteredHistory toLowerCase history (js "") = Return history)
  /\ (forall history o p,
        Forall valid_entry history -> Object o ∈ history -> path o = Some p ->
        exists shown, filteredHistory toLowerCase history p = Return shown
                      /\ Object o ∈ shown)
  /\ (forall w history filter,
        Forall valid_entry (stored_items w) -> toLowerCase [] = [] ->
        eval onOpen w = Return (history, filter) ->
        filteredHistory toLowerCase history filter = Return (loaded w)).
Proof.
  assert (R : forall history filter,
            Forall valid_entry history ->
            filteredHistory toLowerCase history filter
            = Return (base.filter
                        (fun x => matches_filter toLowerCase filter x = Return true)
                        history)).
  { intros history filter H. apply Array_filter_returns.
    eapply Forall_impl; [exact H|]. intros e. apply matches_filter_valid. }
  assert (All : forall history,
            Forall valid_entry history -> toLowerCase [] = [] ->
            filteredHistory toLowerCase history (js "") = Return history).
  { intros history H Hlow. rewrite R by done. f_equal.
    induction H as [|e l (p & t & n & ->) Hl IH]; [done|].
    rewrite filter_cons_True, IH; [done|].
    simpl. by rewrite Hlow, includes_nil. }
  split; [|split; [exact All|split]].
  - intros history filter H. rewrite R by done.
    eexists. split; [done|]. apply sublist_filter.
  - intros history o p H Hin Hp. rewrite R by done.
    eexists. split; [done|]. apply list_elem_of_filter. split; [|done].
    simpl. by rewrite Hp, includes_refl.
  - intros w history filter H Hlow Hopen.
    rewrite onOpen_eq in Hopen. injection Hopen as <- <-.
    apply All; [by apply loaded_valid|done].
Qed.

Lemma filteredHistory_on_valid_entries_witness :
  let w := exec (saveProjectToHistory 2 (js "/Srv/Web"))
             (exec (saveProjectToHistory 1 (js "/srv/app")) fresh) in
  filteredHistory toLowerCase_ascii (loaded w) (js "") = Return (loaded w).
Proof.
  intros w.
  apply (proj1 (proj2 (filteredHistory_on_valid_entries toLowerCase_ascii))).
  - unfold w. vm_compute. repeat constructor; by eexists _, _, _.
  - reflexivity.
Defined.

Example filteredHistory_ignores_case :
  filteredHistory toLowerCase_ascii
    [entry 2 (js "/Srv/Web"); entry 1 (js "/srv/app")] (js "WEB")
  = Return [entry 2 (js "/Srv/Web")].
Proof. by vm_compute. Qed.

(** ** The store: what is written, what is logged, what is thrown *)

Section Worlds.

Implicit Types (w : World) (l : list element) (p q : jsstring).

(** [loadProjectHistory] leaves the storage alone and writes at most one
    line to the console. *)
Lemma loadProjectHistory_world w :
  exists lines,
    loadProjectHistory w
    = (Return (loaded w), mkWorld (localStorage w) (console w ++ lines))
    /\ (lines = []
        \/ exists e, lines = [(js "Failed to load project history:", e)]).
Proof.
  rewrite loaded_eq, loadProjectHistory_eq. unfold stored_items, logged.
  destruct w as [st c]. simpl.
  destruct (st !! STORAGE_KEY) as [[[|ch s]|v]|];
    try (exists []; rewrite app_nil_r; split; [done|by left]);
    try (eexists [_]; split; [done|right; eauto]).
  destruct v; try (eexists [_]; split; [done|right; eauto]).
  rewrite <- Array_sort_view.
  destruct (Array_sort compare_lastUsed items).
  - exists []. rewrite app_nil_r. split; [done|by left].
  - eexists [_]. split; [done|right; eauto].
Qed.

Lemma loadProjectHistory_quiet w :
  well_formed w -> loadProjectHistory w = (Return (loaded w), w).
Proof.
  rewrite loaded_eq, loadProjectHistory_eq.
  unfold stored_items, well_formed in *.
  destruct (localStorage w !! STORAGE_KEY) as [[[|ch s]|v]|]; try done.
  destruct v; try done. intros. by rewrite Array_sort_objects, sorted_view_objects.
Qed.

(** What an accepted save does to the world. *)
Lemma saveProjectToHistory_world now p w :
  ~ blank p ->
  exists lines,
    (lines = [] \/ exists e, lines = [(js "Failed to load project history:", e)])
    /\ (well_formed w -> lines = [])
    /\ exec (saveProjectToHistory now p) w
       = if decide (Forall is_object (loaded w))
         then mkWorld (<[STORAGE_KEY :=
                          Parses (PArray (entry now p :: take 9 (others p (loaded w))))]>
                         (localStorage w))
                (console w ++ lines)
         else mkWorld (localStorage w)
                ((console w ++ lines)
                   ++ [(js "Failed to save project to history:", TypeError)]).
Proof.
  intros Hp. unfold saveProjectToHistory.
  destruct (negb (truthy p) || eqb (trim p) (js "")) eqn:G.
  { by apply guard_blank in G. }
  destruct (decide (well_formed w)) as [Hwf|Hwf].
  - exists []. split; [by left|]. split; [done|].
    unfold_M. rewrite loadProjectHistory_quiet by done.
    rewrite Array_filter_view, app_nil_r. by destruct (decide _).
  - destruct (loadProjectHistory_world w) as (lines & Hload & Hlines).
    exists lines. split; [done|]. split; [done|].
    unfold_M. rewrite Hload, Array_filter_view. by destruct (decide _).
Qed.

Lemma removeProjectFromHistory_world p w :
  exists lines,
    (lines = [] \/ exists e, lines = [(js "Failed to load project history:", e)])
    /\ (well_formed w -> lines = [])
    /\ exec (removeProjectFromHistory p) w
       = if decide (Forall is_object (loaded w))
         then mkWorld (<[STORAGE_KEY := Parses (PArray (others p (loaded w)))]>
                         (localStorage w))
                (console w ++ lines)
         else mkWorld (localStorage w)
                ((console w ++ lines)
                   ++ [(js "Failed to remove project from history:", TypeError)]).
Proof.
  unfold removeProjectFromHistory.
  destruct (decide (well_formed w)) as [Hwf|Hwf].
  - exists []. split; [by left|]. split; [done|].
    unfold_M. rewrite loadProjectHistory_quiet by done.
    rewrite Array_filter_view, app_nil_r. by destruct (decide _).
  - destruct (loadProjectHistory_world w) as (lines & Hload & Hlines).
    exists lines. split; [done|]. split; [done|].
    unfold_M. rewrite Hload, Array_filter_view. by destruct (decide _).
Qed.

Lemma getMostRecentProject_world w :
  exec getMostRecentProject w = exec loadProjectHistory w.
Proof.
  unfold getMostRecentProject.
  destruct (loadProjectHistory_returns w) as (w' & Hload & _).
  unfold_M. rewrite Hload. simpl.
  destruct (sorted_view (stored_items w)) as [|item h]; simpl; [done|].
  by destruct (get_path item).
Qed.

(** An operation leaves the other keys alone and adds to the console
    without touching what is there. *)
Lemma run_op_world o w :
  exists st' lines,
    exec (run_op o) w = mkWorld st' (console w ++ lines)
    /\ (forall k, k <> STORAGE_KEY -> st' !! k = localStorage w !! k)
    /\ (o = Load \/ o = MostRecent -> st' = localStorage w).
Proof.
  destruct o as [now p|p| | |]; simpl.
  - destruct (decide (blank p)) as [Hb|Hb].
    + exists (localStorage w), []. unfold exec.
      rewrite saveProjectToHistory_blank, app_nil_r by done.
      by destruct w.
    + destruct (saveProjectToHistory_world now p w Hb) as (lines & _ & _ & ->).
      destruct (decide _).
      * eexists _, _. split; [done|]. split; [|by intros [|]].
        intros k Hk. by rewrite lookup_insert_ne.
      * eexists _, _. rewrite <- app_assoc. split; [done|].
        split; [done|by intros [|]].
  - destruct (removeProjectFromHistory_world p w) as (lines & _ & _ & ->).
    destruct (decide _).
    + eexists _, _. split; [done|]. split; [|by intros [|]].
      intros k Hk. by rewrite lookup_insert_ne.
    + eexists _, _. rewrite <- app_assoc. split; [done|].
      split; [done|by intros [|]].
  - exists (delete STORAGE_KEY (localStorage w)), [].
    rewrite app_nil_r. split; [done|]. split; [|by intros [|]].
    intros k Hk. by rewrite lookup_delete_ne.
  - destruct (loadProjectHistory_world w) as (lines & Hload & _).
    exists (localStorage w), lines. unfold_M. by rewrite Hload.
  - destruct (loadProjectHistory_world w) as (lines & Hload & _).
    exists (localStorage w), lines.
    assert (E : exec (getMostRecentProject;; mret tt) w = exec getMostRecentProject w).
    { unfold_M. by destruct (getMostRecentProject w) as [[v|e] w']. }
    rewrite E, getMostRecentProject_world. unfold exec. by rewrite Hload.
Qed.

Lemma stored_items_null w :
  stored_items w = [Null] ->
  localStorage w !! STORAGE_KEY = Some (Parses (PArray [Null])).
Proof.
  unfold stored_items.
  destruct (localStorage w !! STORAGE_KEY) as [[s|[]]|]; try done.
  by intros ->.
Qed.

Lemma loads_objects_iff w : loads_objects w <-> stored_items w <> [Null].
Proof.
  unfold loads_objects. rewrite loaded_eq. split.
  - intros H E. rewrite E in H. apply Forall_inv in H. by apply H.
  - intros H. destruct (decide (Forall is_object (sorted_view (stored_items w))))
      as [|Hn]; [done|]. by apply sorted_view_null in Hn as [? _].
Qed.

Lemma well_formed_loads_objects w : well_formed w -> loads_objects w.
Proof.
  intros H. apply objects_only_loads. unfold objects_only, stored_items.
  unfold well_formed in H.
  destruct (localStorage w !! STORAGE_KEY) as [[[|ch s]|v]|]; try done.
  by destruct v.
Qed.

End Worlds.

(** X5.  Whatever operations run, in whatever state: the keys of
    [localStorage] other than ["claudia-project-history"] keep what they
    hold, and the console keeps what was written, new lines coming
    after.  Loading and asking for the most recent project change the
    storage under no key. *)
Theorem operations_touch_one_key ops w :
  (forall k, k <> STORAGE_KEY ->
             localStorage (run_ops ops w) !! k = localStorage w !! k)
  /\ console w `prefix_of` console (run_ops ops w)
  /\ (Forall (fun o => o = Load \/ o = MostRecent) ops ->
      localStorage (run_ops ops w) = localStorage w).
Proof.
  revert w. induction ops as [|o ops IH]; intros w; simpl.
  { by repeat split. }
  destruct (run_op_world o w) as (st' & lines & E & Hk & Hro).
  destruct (IH (exec (run_op o) w)) as (IH1 & IH2 & IH3).
  rewrite E in *. simpl in *. split; [|split].
  - intros k Hne. by rewrite IH1, Hk.
  - etrans; [|exact IH2]. by apply prefix_app_r.
  - intros H. apply Forall_cons in H as [Ho H].
    rewrite IH3 by done. auto.
Qed.

Lemma operations_touch_one_key_witness :
  let w := mkWorld {[ js "theme" := Unparseable (js "dark") ]} [] in
  localStorage (run_ops [Load; MostRecent] w) = localStorage w.
Proof.
  intros w. apply (proj2 (proj2 (operations_touch_one_key [Load; MostRecent] w))).
  apply Forall_cons; split; [by left|].
  apply Forall_cons; split; [by right|]. constructor.
Defined.

(** X6.  In every state [loadProjectHistory], [saveProjectToHistory],
    [removeProjectFromHistory] and [clearProjectHistory] return to the
    caller.  [getMostRecentProject], which has no [try], throws exactly
    when the stored array is [[null]], and what it throws is a
    [TypeError]. *)
Theorem only_getMostRecentProject_throws w :
  (exists history, eval loadProjectHistory w = Return history)
  /\ (forall now p, eval (saveProjectToHistory now p) w = Return tt)
  /\ (forall p, eval (removeProjectFromHistory p) w = Return tt)
  /\ eval clearProjectHistory w = Return tt
  /\ (forall e, eval getMostRecentProject w = Throw e
                <-> e = TypeError /\ stored_items w = [Null]).
Proof.
  split; [|split; [|split; [|split]]].
  - destruct (loadProjectHistory_returns w) as (w' & H & _).
    unfold eval. rewrite H. eauto.
  - intros now p. destruct (decide (blank p)) as [Hb|Hb].
    + unfold eval. by rewrite saveProjectToHistory_blank.
    + by apply saveProjectToHistory_accepted.
  - intros p. apply removeProjectFromHistory_eq.
  - apply clearProjectHistory_eq.
  - intros e. rewrite (proj1 (getMostRecentProject_eq w)). split.
    + intros H. destruct (loaded w) as [|item h] eqn:L; [done|].
      destruct item as [|o]; [|done]. injection H as <-. split; [done|].
      destruct (decide (stored_items w = [Null])) as [|Hn]; [done|].
      apply loads_objects_iff in Hn. unfold loads_objects in Hn.
      rewrite L in Hn. apply Forall_inv in Hn. by destruct Hn.
    + intros [-> H]. by rewrite loaded_eq, H.
Qed.

Lemma only_getMostRecentProject_throws_witness :
  eval getMostRecentProject
    (mkWorld {[ STORAGE_KEY := Parses (PArray [Null]) ]} []) = Throw TypeError.
Proof.
  apply only_getMostRecentProject_throws. split; [done|]. by vm_compute.
Defined.

(** X7.  A save with an accepted path writes over content that cannot
    be read as a history: when the key is absent, or holds a string that
    does not parse or that parses to something other than an array, or an
    array with [null] among two elements or more, the key holds
    afterwards the array of the new entry alone, and
    [loadProjectHistory] returns just that entry. *)
Theorem save_replaces_unreadable_content now p w :
  ~ blank p -> unreadable w ->
  let w' := exec (saveProjectToHistory now p) w in
  localStorage w' !! STORAGE_KEY = Some (Parses (PArray [entry now p]))
  /\ loaded w' = [entry now p]
  /\ well_formed w'.
Proof.
  intros Hp Hu. cbv zeta.
  assert (Hl : loaded w = []).
  { rewrite loaded_eq. unfold stored_items.
    destruct Hu as [Hn|(l & Hl & Hnull & Hlen)].
    - unfold holds_array in Hn.
      destruct (localStorage w !! STORAGE_KEY) as [[s|[]]|]; try done.
      destruct Hn. eauto.
    - rewrite Hl. unfold sorted_view. rewrite decide_False.
      + by destruct l as [|x [|y l]]; simpl in *; try lia.
      + rewrite Forall_forall. intros H. by apply (H Null). }
  destruct (saveProjectToHistory_world now p w Hp) as (lines & _ & _ & E).
  rewrite Hl in E. rewrite decide_True in E by constructor.
  assert (L : localStorage (exec (saveProjectToHistory now p) w) !! STORAGE_KEY
              = Some (Parses (PArray [entry now p]))).
  { rewrite E. simpl. by rewrite lookup_insert_eq. }
  split; [done|]. split.
  - rewrite loaded_eq. unfold stored_items. by rewrite L.
  - unfold well_formed. rewrite L. by repeat constructor.
Qed.

Lemma save_replaces_unreadable_content_witness :
  let w := mkWorld {[ STORAGE_KEY := Unparseable (js "[{") ]} [] in
  loaded (exec (saveProjectToHistory 4 (js "/srv/app")) w)
  = [entry 4 (js "/srv/app")].
Proof.
  intros w. apply (save_replaces_unreadable_content 4 (js "/srv/app") w).
  - by_evaluation.
  - left. intros [l H]. vm_compute in H. discriminate.
Defined.

(** X8.  A stored [[null]] stays until the history is cleared: no save,
    removal, load or query changes the storage, and each accepted save
    and each removal writes one line about its failure to the console.
    After [clearProjectHistory] saves work again. *)
Theorem null_store_stays_until_cleared w :
  stored_items w = [Null] ->
  (forall ops, Clear ∉ ops -> localStorage (run_ops ops w) = localStorage w)
  /\ (forall now p, ~ blank p ->
        console (exec (saveProjectToHistory now p) w)
        = console w ++ [(js "Failed to save project to history:", TypeError)])
  /\ (forall p,
        console (exec (removeProjectFromHistory p) w)
        = console w ++ [(js "Failed to remove project from history:", TypeError)])
  /\ (forall now p, ~ blank p ->
        stored_items (exec (saveProjectToHistory now p) (exec clearProjectHistory w))
        = [entry now p]).
Proof.
  intros Hnull.
  assert (Step : forall w o, stored_items w = [Null] -> o <> Clear ->
                   localStorage (exec (run_op o) w) = localStorage w).
  { clear w Hnull. intros w o Hnull Ho.
    assert (Hl : ~ Forall is_object (loaded w)).
    { rewrite loaded_eq, Hnull. intros H. apply Forall_inv in H. by apply H. }
    destruct o as [now p|p| | |]; simpl; [| |done| |].
    - destruct (decide (blank p)) as [Hb|Hb].
      + unfold exec. by rewrite saveProjectToHistory_blank.
      + destruct (saveProjectToHistory_world now p w Hb) as (lines & _ & _ & ->).
        by rewrite decide_False.
    - destruct (removeProjectFromHistory_world p w) as (lines & _ & _ & ->).
      by rewrite decide_False.
    - destruct (run_op_world Load w) as (st' & lines & E & _ & Hro).
      simpl in E. rewrite E. simpl. auto.
    - destruct (run_op_world MostRecent w) as (st' & lines & E & _ & Hro).
      simpl in E. rewrite E. simpl. auto. }
  assert (Hquiet : loadProjectHistory w = (Return [Null], w)).
  { rewrite loadProjectHistory_eq, (stored_items_null w Hnull). done. }
  assert (Hl : loaded w = [Null]) by by rewrite loaded_eq, Hnull.
  split; [|split; [|split]].
  - intros ops. clear Hquiet Hl. revert w Hnull.
    induction ops as [|o ops IH]; intros w Hnull Hops; simpl; [done|].
    apply not_elem_of_cons in Hops as [Ho Hops].
    assert (E : localStorage (exec (run_op o) w) = localStorage w)
      by (apply Step; [done|congruence]).
    rewrite <- E. apply IH; [|done].
    by rewrite (stored_items_storage _ _ E).
  - intros now p Hp. unfold saveProjectToHistory.
    destruct (negb (truthy p) || eqb (trim p) (js "")) eqn:G.
    { by apply guard_blank in G. }
    unfold_M. by rewrite Hquiet.
  - intros p. unfold removeProjectFromHistory. unfold_M. by rewrite Hquiet.
  - intros now p Hp.
    destruct (clearProjectHistory_eq w) as [_ Hc].
    rewrite saved_items; [|done|].
    + by rewrite loaded_eq, Hc.
    + unfold loads_objects. by rewrite loaded_eq, Hc.
Qed.

Lemma null_store_stays_until_cleared_witness :
  let w := mkWorld {[ STORAGE_KEY := Parses (PArray [Null]) ]} [] in
  console (exec (saveProjectToHistory 3 (js "/srv/app")) w)
  = console w ++ [(js "Failed to save project to history:", TypeError)].
Proof.
  intros w.
  assert (H : stored_items w = [Null]) by by vm_compute.
  apply (proj1 (proj2 (null_store_stays_until_cleared w H)) 3 (js "/srv/app")).
  by_evaluation.
Defined.

Section Quiet.

Implicit Types (w : World) (l : list element) (p q : jsstring).

Lemma run_op_quiet o w :
  well_formed w ->
  eval (run_op o) w = Return tt
  /\ console (exec (run_op o) w) = console w
  /\ well_formed (exec (run_op o) w).
Proof.
  intros Hw. pose proof (well_formed_loads_objects w Hw) as Hlo.
  destruct o as [now p|p| | |]; simpl.
  - destruct (decide (blank p)) as [Hb|Hb].
    + unfold eval, exec. by rewrite saveProjectToHistory_blank.
    + split; [by apply saveProjectToHistory_accepted|].
      destruct (saveProjectToHistory_world now p w Hb) as (lines & _ & Hq & ->).
      rewrite (Hq Hw), app_nil_r, decide_True by done. split; [done|].
      unfold well_formed. simpl. rewrite lookup_insert_eq.
      constructor; [done|]. by apply Forall_take, others_Forall.
  - split; [apply removeProjectFromHistory_eq|].
    destruct (removeProjectFromHistory_world p w) as (lines & _ & Hq & ->).
    rewrite (Hq Hw), app_nil_r, decide_True by done. split; [done|].
    unfold well_formed. simpl. rewrite lookup_insert_eq.
    by apply others_Forall.
  - split; [apply clearProjectHistory_eq|]. split; [done|].
    unfold well_formed, clearProjectHistory. unfold_M. simpl.
    by rewrite lookup_delete_eq.
  - unfold_M. by rewrite loadProjectHistory_quiet.
  - unfold getMostRecentProject. unfold_M.
    rewrite loadProjectHistory_quiet by done.
    unfold loads_objects in Hlo.
    destruct (loaded w) as [|item h]; simpl; [done|].
    apply Forall_inv in Hlo. by destruct item.
Qed.

End Quiet.

(** X9.  On content on which nothing fails (the key absent, or holding
    the empty string or an array of objects) the operations are silent:
    each of them returns without throwing, and any sequence of them
    writes nothing to the console and leaves such content behind. *)
Theorem operations_silent_on_well_formed ops w :
  well_formed w ->
  (forall o, eval (run_op o) w = Return tt)
  /\ console (run_ops ops w) = console w
  /\ well_formed (run_ops ops w).
Proof.
  intros Hw. split; [intros o; by apply run_op_quiet|].
  revert w Hw. induction ops as [|o ops IH]; intros w Hw; simpl; [done|].
  destruct (run_op_quiet o w Hw) as (_ & Hc & Hw').
  destruct (IH _ Hw') as [IH1 IH2]. split; [congruence|done].
Qed.

Lemma operations_silent_on_well_formed_witness :
  console (run_ops [Save 1 (js "/a"); Save 2 (js " "); Remove (js "/b");
                    MostRecent; Load; Clear; MostRecent]
             (mkWorld {[ STORAGE_KEY := Unparseable (js "") ]} []))
  = [].
Proof.
  apply (operations_silent_on_well_formed _
           (mkWorld {[ STORAGE_KEY := Unparseable (js "") ]} [])).
  by vm_compute.
Defined.

(** ** What the module keeps in the store *)

Section Kept.

Implicit Types (w : World) (l k : list element) (p q : jsstring).

Lemma filter_sublist_length (P : element -> Prop) `{!forall x, Decision (P x)} k l :
  k `sublist_of` l -> (length (filter P k) <= length (filter P l))%nat.
Proof.
  induction 1 as [|x k l Hs IH|x k l Hs IH]; [done| |].
  - rewrite !filter_cons. destruct (decide (P x)); simpl; lia.
  - rewrite filter_cons. destruct (decide (P x)); simpl; lia.
Qed.

Lemma unique_paths_sublist k l : k `sublist_of` l -> unique_paths l -> unique_paths k.
Proof.
  intros Hs H q. etrans; [by apply filter_sublist_length|apply H].
Qed.

Lemma unique_paths_sortDesc l : unique_paths l -> unique_paths (sortDesc l).
Proof. intros H q. by rewrite sortDesc_perm. Qed.

Lemma kept_objects l : kept l -> Forall is_object l.
Proof.
  intros (H & _ & _). eapply Forall_impl; [exact H|].
  by intros e (now & p & _ & ->).
Qed.

Lemma kept_save now p l : ~ blank p -> kept l -> kept (save_items now p l).
Proof.
  intros Hp Hl. pose proof (kept_objects l Hl) as Ho.
  destruct Hl as (Hf & Hu & Hlen).
  rewrite save_items_objects by done.
  change (take MAX_HISTORY_ITEMS (entry now p :: others p (sortDesc l)))
    with (entry now p :: take 9 (others p (sortDesc l))).
  split; [|split].
  - constructor; [by exists now, p|].
    by apply Forall_take, others_Forall, sortDesc_Forall.
  - intros q. destruct (decide (q = p)) as [->|Hq].
    + rewrite filter_cons_True by done.
      rewrite filter_has_path_none; [done|]. apply Forall_take, others_none.
    + rewrite filter_cons_False by (simpl; congruence).
      apply (unique_paths_sublist _ (sortDesc l)); [|by apply unique_paths_sortDesc].
      etrans; [apply sublist_take|apply sublist_filter].
  - rewrite length_cons, length_take. unfold MAX_HISTORY_ITEMS. lia.
Qed.

Lemma kept_remove p l : kept l -> kept (remove_items p l).
Proof.
  intros Hl. pose proof (kept_objects l Hl) as Ho.
  destruct Hl as (Hf & Hu & Hlen).
  rewrite remove_items_objects by done. split; [|split].
  - by apply others_Forall, sortDesc_Forall.
  - apply (unique_paths_sublist _ (sortDesc l)); [|by apply unique_paths_sortDesc].
    apply sublist_filter.
  - etrans; [apply length_filter|]. by rewrite sortDesc_perm.
Qed.

Lemma kept_step o l : kept l -> kept (step_items o l).
Proof.
  intros Hl. destruct o as [now p|p| | |]; simpl; try done.
  - destruct (decide _); [done|]. by apply kept_save.
  - by apply kept_remove.
  - split; [constructor|]. split; [intros q; simpl; lia|simpl; lia].
Qed.

Lemma others_others p q l : others p (others q l) = others q (others p l).
Proof.
  unfold others. rewrite !list_filter_filter.
  apply list_filter_iff. intros e. tauto.
Qed.

Lemma others_idemp p l : others p (others p l) = others p l.
Proof. apply others_id, others_none. Qed.

Lemma others_insertDesc p x l :
  has_path p x -> others p (insertDesc x l) = others p l.
Proof.
  intros Hx. induction l as [|y l IH]; simpl.
  - by rewrite others_cons_same.
  - destruct (0 <? stamp y - stamp x).
    + unfold others in *. rewrite !filter_cons, IH. done.
    + by rewrite others_cons_same.
Qed.

(** What [loadProjectHistory] returns after an accepted save, wherever
    the clock stands: the new entry put, by its time, into the nine most
    recent others. *)
Lemma saved_loaded_any_time now p w :
  ~ blank p -> loads_objects w ->
  loaded (exec (saveProjectToHistory now p) w)
  = insertDesc (entry now p) (take 9 (others p (loaded w))).
Proof.
  intros Hp Hw. rewrite loaded_eq, saved_items by done.
  rewrite sorted_view_objects.
  - simpl. f_equal. apply sortDesc_id, take_sorted, others_sorted, loaded_sorted.
  - constructor; [done|]. by apply Forall_take, others_Forall.
Qed.

End Kept.

Lemma operations_keep_store_helper ops w :
  stored_items w = [] -> kept (stored_items (run_ops ops w)).
Proof.
  intros Hw. rewrite run_ops_stored, Hw.
  assert (H0 : kept []).
  { split; [constructor|]. split; [intros q; simpl; lia|simpl; lia]. }
  revert H0. generalize (@nil element).
  induction ops as [|o ops IH]; intros l Hl; simpl; [done|].
  by apply IH, kept_step.
Qed.

(** X10.  The module keeps its own store in order: from a stored array
    that is empty, or that it wrote itself, every sequence of operations
    leads to an array of at most ten entries, each made for a path that
    is neither empty nor white space, with its [name] taken from that
    path, and no two of them for the same path. *)
Theorem operations_keep_store ops w :
  kept (stored_items w) -> kept (stored_items (run_ops ops w)).
Proof.
  rewrite run_ops_stored. generalize (stored_items w). clear w.
  induction ops as [|o ops IH]; intros l Hl; simpl; [done|].
  by apply IH, kept_step.
Qed.

Lemma operations_keep_store_witness :
  kept (stored_items
          (run_ops [Save 5 (js "/a"); Save 3 (js "/b"); Save 9 (js "/a");
                    Remove (js "/c"); Save 1 (js "  ")] fresh)).
Proof.
  apply operations_keep_store.
  change (stored_items fresh) with (@nil element).
  split; [constructor|]. split; [intros q; simpl; lia|simpl; lia].
Defined.

(** X11.  Removing is idempotent and removals commute, in every state:
    what [loadProjectHistory] returns after removing [p] twice is what it
    returns after removing it once, and after removing [p] and [q] it
    does not depend on the order of the two. *)
Theorem removals_commute p q w :
  loaded (exec (removeProjectFromHistory p) (exec (removeProjectFromHistory p) w))
  = loaded (exec (removeProjectFromHistory p) w)
  /\ loaded (exec (removeProjectFromHistory p) (exec (removeProjectFromHistory q) w))
     = loaded (exec (removeProjectFromHistory q) (exec (removeProjectFromHistory p) w)).
Proof.
  rewrite !loaded_after_remove. split; [apply others_idemp|apply others_others].
Qed.

(** X12.  Removing a path right after saving it leaves the nine most
    recent other entries: the save is undone, except that a tenth other
    entry, the oldest, is gone for good.  With at most nine other entries
    the result is what removing alone would have left. *)
Theorem save_then_remove now p w :
  ~ blank p -> loads_objects w ->
  let w' := exec (removeProjectFromHistory p)
              (exec (saveProjectToHistory now p) w) in
  loaded w' = take 9 (others p (loaded w))
  /\ ((length (others p (loaded w)) <= 9)%nat ->
      loaded w' = loaded (exec (removeProjectFromHistory p) w)).
Proof.
  intros Hp Hw. cbv zeta.
  rewrite !loaded_after_remove, saved_loaded_any_time by done.
  rewrite others_insertDesc by done.
  assert (E : others p (take 9 (others p (loaded w))) = take 9 (others p (loaded w))).
  { apply others_id, Forall_take, others_none. }
  rewrite E. split; [done|]. intros Hlen. by apply take_ge.
Qed.

Lemma save_then_remove_witness :
  let w := exec (saveProjectToHistory 2 (js "/opt/b"))
             (exec (saveProjectToHistory 1 (js "/opt/a")) fresh) in
  loaded (exec (removeProjectFromHistory (js "/opt/c"))
            (exec (saveProjectToHistory 3 (js "/opt/c")) w))
  = loaded (exec (removeProjectFromHistory (js "/opt/c")) w).
Proof.
  intros w. apply (save_then_remove 3 (js "/opt/c") w).
  - by_evaluation.
  - unfold loads_objects. vm_compute. repeat constructor; discriminate.
  - vm_compute. lia.
Defined.

(** X13.  After an accepted save the history holds the new entry exactly
    once, beside the nine most recent others, wherever the clock stands.
    [getMostRecentProject] returns the saved path exactly when none of
    those others carries a [lastUsed] beyond the time of the save: with
    a clock that was set back, the path just saved is not the most
    recent one. *)
Theorem saved_entry_position now p w :
  ~ blank p -> loads_objects w ->
  let w' := exec (saveProjectToHistory now p) w in
  let others9 := take 9 (others p (loaded w)) in
  loaded w' ≡ₚ entry now p :: others9
  /\ length (filter (has_path p) (loaded w')) = 1%nat
  /\ (eval getMostRecentProject w' = Return (VString p)
      <-> Forall (fun e => stamp e <= now) others9).
Proof.
  intros Hp Hw. cbv zeta.
  rewrite (proj1 (getMostRecentProject_eq _)), saved_loaded_any_time by done.
  set (K := take 9 (others p (loaded w))).
  assert (HK : Forall (fun e => ~ has_path p e) K) by apply Forall_take, others_none.
  assert (HS : StronglySorted stampR K)
    by apply take_sorted, others_sorted, loaded_sorted.
  split; [apply insertDesc_perm|]. split.
  - rewrite insertDesc_perm, filter_cons_True by done.
    by rewrite filter_has_path_none.
  - split.
    + intros H. destruct K as [|y K']; [constructor|].
      simpl in H. destruct (Z.ltb_spec 0 (stamp y - now)) as [Hlt|Hle].
      * apply Forall_inv in HK. destruct y as [|o]; [done|].
        simpl in *. destruct (path o); simplify_eq/=.
      * apply StronglySorted_cons in HS as [Hy _].
        constructor; [lia|]. eapply Forall_impl; [exact Hy|].
        unfold stampR. intros e ?. lia.
    + intros H. by rewrite insertDesc_front.
Qed.

Lemma saved_entry_position_witness :
  let w := exec (saveProjectToHistory 50 (js "/opt/a")) fresh in
  eval getMostRecentProject (exec (saveProjectToHistory 40 (js "/opt/b")) w)
  <> Return (VString (js "/opt/b")).
Proof.
  intros w H.
  apply (saved_entry_position 40 (js "/opt/b") w) in H.
  - vm_compute in H. apply Forall_inv in H. by apply H.
  - by_evaluation.
  - unfold loads_objects. vm_compute. repeat constructor; discriminate.
Defined.

(** X14.  [clearProjectHistory] empties the history in every state,
    whatever the key held: it takes the key out of the storage and
    writes nothing to the console; afterwards [loadProjectHistory]
    returns the empty array without a word, [getMostRecentProject]
    returns [null], and clearing again changes nothing. *)
Theorem clear_empties_history w :
  let w' := exec clearProjectHistory w in
  w' = mkWorld (delete STORAGE_KEY (localStorage w)) (console w)
  /\ loadProjectHistory w' = (Return [], w')
  /\ getMostRecentProject w' = (Return VNull, w')
  /\ exec clearProjectHistory w' = w'.
Proof.
  cbv zeta.
  assert (E : exec clearProjectHistory w
              = mkWorld (delete STORAGE_KEY (localStorage w)) (console w)) by done.
  assert (L : loadProjectHistory (exec clearProjectHistory w)
              = (Return [], exec clearProjectHistory w)).
  { rewrite loadProjectHistory_eq, E. simpl. by rewrite lookup_delete_eq. }
  split; [done|]. split; [done|]. split.
  - unfold getMostRecentProject. unfold_M. by rewrite L.
  - rewrite E. unfold clearProjectHistory. unfold_M. simpl.
    by rewrite delete_delete_eq.
Qed.

Section Room.

Implicit Types (l : list element) (p : jsstring).

Lemma others_length p l :
  (length (filter (has_path p) l) + length (others p l))%nat = length l.
Proof.
  unfold others. rewrite <- length_app.
  by rewrite (filter_app_complement (has_path p) l).
Qed.

Lemma present_count p l :
  Exists (has_path p) l -> (1 <= length (filter (has_path p) l))%nat.
Proof.
  induction 1 as [x l Hx|x l Hl IH].
  - rewrite filter_cons_True by done. simpl. lia.
  - rewrite filter_cons. destruct (decide _); simpl; lia.
Qed.

End Room.

(** X15.  In a store the module keeps, a save drops an entry only when
    the history is full and the path is new.  When there is room, or when
    the path is already there, every entry for another path stays; the
    number of entries stays the same for a path already there and grows
    by one for a new one. *)
Theorem save_drops_only_when_full now p w :
  ~ blank p -> kept (stored_items w) ->
  ((length (stored_items w) < MAX_HISTORY_ITEMS)%nat
   \/ Exists (has_path p) (stored_items w)) ->
  let stored' := stored_items (exec (saveProjectToHistory now p) w) in
  (forall e, e ∈ stored_items w -> ~ has_path p e -> e ∈ stored')
  /\ length stored'
     = (if decide (Exists (has_path p) (stored_items w))
        then length (stored_items w)
        else S (length (stored_items w))).
Proof.
  intros Hp Hk Hroom. cbv zeta.
  pose proof (kept_objects _ Hk) as Ho. destruct Hk as (_ & Hu & Hlen).
  assert (Hlo : loads_objects w) by by apply objects_only_loads.
  rewrite saved_items, loaded_eq, sorted_view_objects by done.
  set (l := stored_items w) in *.
  pose proof (others_length p (sortDesc l)) as Hsum.
  assert (E1 : length (filter (has_path p) (sortDesc l))
               = length (filter (has_path p) l)) by by rewrite sortDesc_perm.
  assert (E2 : length (sortDesc l) = length l) by by rewrite sortDesc_perm.
  rewrite E1, E2 in Hsum.
  assert (Hcount : (length (filter (has_path p) l)
                    = if decide (Exists (has_path p) l) then 1 else 0)%nat).
  { destruct (decide _) as [He|He].
    - pose proof (present_count p l He). specialize (Hu p). lia.
    - rewrite filter_has_path_none; [done|].
      apply Forall_forall. intros e Hin Hpe. apply He, Exists_exists. eauto. }
  assert (Hfit : (length (others p (sortDesc l)) <= 9)%nat).
  { unfold MAX_HISTORY_ITEMS in *. destruct Hroom as [?|He]; [lia|].
    rewrite decide_True in Hcount by done. lia. }
  rewrite take_ge by done. split.
  - intros e He Hne. right. apply list_elem_of_filter. split; [done|].
    by rewrite sortDesc_perm.
  - rewrite length_cons. destruct (decide _); lia.
Qed.

Lemma save_drops_only_when_full_witness :
  let w := exec (saveProjectToHistory 2 (js "/opt/b"))
             (exec (saveProjectToHistory 1 (js "/opt/a")) fresh) in
  length (stored_items (exec (saveProjectToHistory 3 (js "/opt/a")) w))
  = (if decide (Exists (has_path (js "/opt/a")) (stored_items w))
     then length (stored_items w)
     else S (length (stored_items w))).
Proof.
  intros w. apply (save_drops_only_when_full 3 (js "/opt/a") w).
  - by_evaluation.
  - by apply (operations_keep_store_helper
                [Save 1 (js "/opt/a"); Save 2 (js "/opt/b")] fresh).
  - left. vm_compute. lia.
Defined.
